(** * crawl-a-site: the crawl orchestration engine of [main.py]

    A shallow embedding of the session registry, the frontier queue, the
    visited set, the backoff controller and the [crawler] worker loop, and the
    properties of them that the specification states.

    The program is an asyncio application: its tasks run on one event loop and
    change hands only where a task suspends.  A [crawler] coroutine can
    suspend at [run_flag.wait()], at [url_queue.get()], at the two
    [asyncio.sleep] calls and at [client.get(url)].  Its other awaits never
    suspend: the two locks are taken and released with no await in between,
    so whoever asks for one finds it free, and a [put] on an unbounded queue
    returns at once.  A worker is therefore modelled by the place where it
    waits (a [frame]) and by one atomic step from each such place to the
    next.  The event loop runs a task on from a wait that is already
    satisfied; here every such place is a point where another task may come
    in between, so the runs of the model include those of the program. *)

From Stdlib Require Import ZArith String PrimFloat.
From stdpp Require Import base gmap sets list strings.

Set Warnings "-inexact-float".
Local Open Scope Z_scope.

(** ** Data *)

(** A frontier item, [{"url": ..., "depth": ...}]. *)
Record item := Item { url : string; depth : Z }.

(** A crawl event, [{"visited": ..., "links": ..., "depth": ...}]. *)
Record message := Message {
  msg_visited : string;
  msg_links : list string;
  msg_depth : Z
}.

(** The shared [backoff] dictionary. *)
Record Backoff := { wait : float; consecutive_failures : Z }.

(** The exceptions that occur.  [HTTPException] is the class FastAPI answers
    with a client error; an endpoint that ends with any other exception is
    answered with an internal server error.  [RequestError] stands for httpx's
    transport-level errors, which are not [HTTPStatusError]s. *)
Inductive exn :=
| KeyError (key : string)
| ValueError
| QueueEmpty
| RequestError
| CancelledError
| HTTPException (status_code : Z).

Inductive result (A : Type) :=
| Ok (a : A)
| Raise (e : exn)
| Pending.
Arguments Ok {A} a.
Arguments Raise {A} e.
Arguments Pending {A}.

(** What [client.get(url)] followed by the parser delivers: a response with
    its status code and the [href] values of its anchors in document order
    ([soup.find_all("a", href=True)]), or a transport-level error. *)
Inductive fetch_result :=
| Response (status_code : Z) (hrefs : list string)
| Transport_error.

(** The lines the worker prints. *)
Inductive log_line :=
| Over_max_depth (depth : Z)
| Already_seen
| Max_attempts_reached
| Request_failed (status_code : Z) (url : string)
| Backing_off
| Unhandled_error_code (status_code : Z).

(** What a step does to the outside, in order. *)
Inductive action :=
| Get (url : string) (attempts : Z)
| Put_message (m : message)
| Put_url (i : item)
| Task_done
| Visited_add (url : string)
| Printed (l : log_line).

(** ** asyncio.Queue *)

Module Queue.

Record t (A : Type) := Make { items : list A; unfinished_tasks : Z }.
Arguments Make {A} items unfinished_tasks.
Arguments items {A} _.
Arguments unfinished_tasks {A} _.

Definition new {A} : t A := Make [] 0.

Definition empty {A} (q : t A) : bool :=
  match items q with [] => true | _ => false end.

(** [put] on an unbounded queue. *)
Definition put {A} (x : A) (q : t A) : t A :=
  Make (items q ++ [x]) (unfinished_tasks q + 1).

Definition get_nowait {A} (q : t A) : result (A * t A) :=
  match items q with
  | [] => Raise QueueEmpty
  | x :: rest => Ok (x, Make rest (unfinished_tasks q))
  end.

Definition task_done {A} (q : t A) : result (t A) :=
  if unfinished_tasks q <=? 0 then Raise ValueError
  else Ok (Make (items q) (unfinished_tasks q - 1)).

End Queue.

(** ** The backoff controller *)

(** [backoff_calculator]: the dictionary after the call and the value
    returned. *)
Definition backoff_calculator (backoff : Backoff) (failed : bool)
    (min_wait : float) : Backoff * float :=
  let backoff :=
    if failed then
      {| wait := (wait backoff * 2)%float;
         consecutive_failures := consecutive_failures backoff + 1 |}
    else
      let backoff :=
        if PrimFloat.ltb min_wait (wait backoff)
        then {| wait := (wait backoff * 0.8)%float;
                consecutive_failures := consecutive_failures backoff |}
        else backoff in
      {| wait := wait backoff; consecutive_failures := 0 |} in
  (backoff, wait backoff).

(** A run of calls, oldest first. *)
Fixpoint backoff_calls (backoff : Backoff) (min_wait : float)
    (calls : list bool) : Backoff :=
  match calls with
  | [] => backoff
  | failed :: calls =>
      backoff_calls (fst (backoff_calculator backoff failed min_wait))
        min_wait calls
  end.

(** ** A crawl session *)

(** The arguments [crawl] hands to every [crawler]. *)
Record params := Params {
  base_url : string;
  max_depth : Z;
  max_attempts : Z;
  min_wait : float
}.

(** Where a [crawler] coroutine is suspended, with the locals it needs when
    it goes on.  The loop is [while True], so the coroutine ends only by an
    exception that leaves it. *)
Inductive frame :=
| At_run_flag
| At_url_queue
| At_sleep (url : string) (depth : Z)
| At_get (url : string) (depth : Z) (attempts : Z)
| At_backoff (url : string) (depth : Z) (attempts : Z) (wait_time : float)
| Finished (e : exn).

(** The objects [crawl] builds and its worker tasks. *)
Record session := Session {
  url_queue : Queue.t item;
  run_flag : bool;
  visited : gset string;
  message_queue : Queue.t message;
  backoff : Backoff;
  workers : list frame
}.

Definition with_url_queue (q : Queue.t item) (s : session) : session :=
  Session q (run_flag s) (visited s) (message_queue s) (backoff s) (workers s).
Definition with_run_flag (b : bool) (s : session) : session :=
  Session (url_queue s) b (visited s) (message_queue s) (backoff s) (workers s).
Definition with_visited (v : gset string) (s : session) : session :=
  Session (url_queue s) (run_flag s) v (message_queue s) (backoff s) (workers s).
Definition with_message_queue (q : Queue.t message) (s : session) : session :=
  Session (url_queue s) (run_flag s) (visited s) q (backoff s) (workers s).
Definition with_backoff (b : Backoff) (s : session) : session :=
  Session (url_queue s) (run_flag s) (visited s) (message_queue s) b (workers s).
Definition with_workers (ws : list frame) (s : session) : session :=
  Session (url_queue s) (run_flag s) (visited s) (message_queue s) (backoff s) ws.

(** ** Code between two suspension points

    A computation changes the session, may raise, and lists what it did.
    [Pending] is the answer of an await that is not ready; it only occurs as
    the first thing a step does, so nothing has happened when it is given. *)

Definition M (A : Type) : Type := session → result A * session * list action.

#[global] Instance M_ret : MRet M := λ A a s, (Ok a, s, []).

#[global] Instance M_bind : MBind M := λ A B f m s,
  match m s with
  | (Ok a, s1, t1) => let '(r, s2, t2) := f a s1 in (r, s2, t1 ++ t2)
  | (Raise e, s1, t1) => (Raise e, s1, t1)
  | (Pending, s1, t1) => (Pending, s1, t1)
  end.

Definition raise {A} (e : exn) : M A := λ s, (Raise e, s, []).

Definition print (l : log_line) : M unit := λ s, (Ok (), s, [Printed l]).

Definition run_flag_wait : M unit := λ s,
  if run_flag s then (Ok (), s, []) else (Pending, s, []).

Definition run_flag_clear : M unit := λ s, (Ok (), with_run_flag false s, []).

Definition url_queue_get : M item := λ s,
  match Queue.get_nowait (url_queue s) with
  | Ok (next_url, q) => (Ok next_url, with_url_queue q s, [])
  | _ => (Pending, s, [])
  end.

Definition url_queue_get_nowait : M item := λ s,
  match Queue.get_nowait (url_queue s) with
  | Ok (next_url, q) => (Ok next_url, with_url_queue q s, [])
  | Raise e => (Raise e, s, [])
  | Pending => (Pending, s, [])
  end.

Definition url_queue_put (i : item) : M unit := λ s,
  (Ok (), with_url_queue (Queue.put i (url_queue s)) s, [Put_url i]).

Definition url_queue_task_done : M unit := λ s,
  match Queue.task_done (url_queue s) with
  | Ok q => (Ok (), with_url_queue q s, [Task_done])
  | Raise e => (Raise e, s, [])
  | Pending => (Pending, s, [])
  end.

Definition message_queue_put (m : message) : M unit := λ s,
  (Ok (), with_message_queue (Queue.put m (message_queue s)) s, [Put_message m]).

Definition get_visited : M (gset string) := λ s, (Ok (visited s), s, []).

Definition visited_add (u : string) : M unit := λ s,
  (Ok (), with_visited ({[u]} ∪ visited s) s, [Visited_add u]).

Definition client_get (u : string) (attempts : Z) : M unit := λ s,
  (Ok (), s, [Get u attempts]).

(** [await backoff_calculator(backoff, backoff_lock, failed, min_wait)] on the
    session's dictionary. *)
Definition await_backoff_calculator (failed : bool) (min_wait : float)
    : M float := λ s,
  let '(b, w) := backoff_calculator (backoff s) failed min_wait in
  (Ok w, with_backoff b s, []).

Fixpoint for_each {A} (l : list A) (body : A → M unit) : M unit :=
  match l with
  | [] => mret ()
  | x :: l => body x ;; for_each l body
  end.

(** ** The worker *)

Definition skip_codes : list Z := [301; 302; 400; 401; 403; 404].
Definition backoff_codes : list Z := [429; 500; 502; 503; 504].

(** httpx: [raise_for_status] raises [HTTPStatusError] unless the status is a
    2xx one. *)
Definition is_success (status_code : Z) : bool :=
  (200 <=? status_code) && (status_code <=? 299).

Section Crawler.

Context (p : params).

(** Lines 320-335, after [url_queue.get()] has given [next_url]: the depth
    filter, then the check and the insertion under [visited_lock]. *)
Definition claim (next_url : item) : M frame :=
  let depth := depth next_url in
  if depth >? max_depth p then
    url_queue_task_done ;;
    print (Over_max_depth depth) ;;
    mret At_run_flag
  else
    let url := url next_url in
    visited ← get_visited;
    if bool_decide (url ∈ visited) then
      print Already_seen ;;
      url_queue_task_done ;;
      mret At_run_flag
    else
      visited_add url ;;
      mret (At_sleep url depth).

(** Lines 341-351: the head of the retry loop, up to the request. *)
Definition attempt (url : string) (depth attempts : Z) : M frame :=
  if attempts >? max_attempts p then
    url_queue_task_done ;;
    print Max_attempts_reached ;;
    mret At_run_flag
  else
    let attempts := attempts + 1 in
    client_get url attempts ;;
    mret (At_get url depth attempts).

(** Lines 351-409: what follows the request once its result is there. *)
Definition handle (url : string) (depth attempts : Z) (r : fetch_result)
    : M frame :=
  match r with
  | Transport_error => raise RequestError
  | Response status_code hrefs =>
      if is_success status_code then
        await_backoff_calculator false (min_wait p) ;;
        let links : gset string :=
          list_to_set (List.filter (String.prefix (base_url p)) hrefs) in
        message_queue_put (Message url (elements links) depth) ;;
        visited ← get_visited;
        let links := links ∖ visited in
        for_each (elements links)
          (λ link, url_queue_put (Item link (depth + 1))) ;;
        url_queue_task_done ;;
        mret At_run_flag
      else
        print (Request_failed status_code url) ;;
        if bool_decide (status_code ∈ skip_codes) then
          message_queue_put (Message url [] depth) ;;
          url_queue_task_done ;;
          mret At_run_flag
        else if bool_decide (status_code ∈ backoff_codes) then
          wait_time ← await_backoff_calculator true (min_wait p);
          print Backing_off ;;
          mret (At_backoff url depth attempts wait_time)
        else
          print (Unhandled_error_code status_code) ;;
          mret At_run_flag
  end.

(** One step of [crawler] from where it is suspended.  [reply] is the
    result of the request when that is what the worker waits for.  [None]
    when the worker does not wait for what is offered. *)
Definition crawler (f : frame) (reply : option fetch_result)
    : option (M frame) :=
  match f, reply with
  | At_run_flag, None => Some (run_flag_wait ;; mret At_url_queue)
  | At_url_queue, None => Some (next_url ← url_queue_get; claim next_url)
  | At_sleep url depth, None => Some (attempt url depth 0)
  | At_get url depth attempts, Some r => Some (handle url depth attempts r)
  | At_backoff url depth attempts _, None => Some (attempt url depth attempts)
  | _, _ => None
  end.

(** ** The session as a whole *)

(** [stop_session] after the grace sleep: the drain loop, at most once per
    item that is queued. *)
Fixpoint drain (fuel : nat) : M unit :=
  λ s,
  if Queue.empty (url_queue s) then (Ok (), s, [])
  else match fuel with
       | O => (Ok (), s, [])
       | S fuel => (url_queue_get_nowait ;; url_queue_task_done ;; drain fuel) s
       end.

Definition drain_url_queue : M unit := λ s,
  drain (length (Queue.items (url_queue s))) s.

(** [event_generator]: one turn of its loop. *)
Definition message_queue_get : M message := λ s,
  match Queue.get_nowait (message_queue s) with
  | Ok (m, q) => (Ok m, with_message_queue q s, [])
  | _ => (Pending, s, [])
  end.

(** What the event loop may run next. *)
Inductive choice :=
| Resume (i : nat)
| Deliver (i : nat) (r : fetch_result)
| Cancel (i : nat)
| Stop_clear
| Stop_drain
| Stream_get.

Definition run_worker (i : nat) (reply : option fetch_result) (s : session)
    : option (session * list action) :=
  f ← workers s !! i;
  m ← crawler f reply;
  match m s with
  | (Ok f', s', t) => Some (with_workers (<[i := f']> (workers s')) s', t)
  | (Raise e, s', t) =>
      Some (with_workers (<[i := Finished e]> (workers s')) s', t)
  | (Pending, _, _) => None
  end.

Definition run_endpoint {A} (m : M A) (s : session)
    : option (session * list action) :=
  match m s with
  | (Pending, _, _) => None
  | (_, s', t) => Some (s', t)
  end.

Definition cancel_worker (i : nat) (s : session)
    : option (session * list action) :=
  f ← workers s !! i;
  match f with
  | Finished _ => None
  | _ => Some (with_workers (<[i := Finished CancelledError]> (workers s)) s, [])
  end.

Definition step (c : choice) (s : session) : option (session * list action) :=
  match c with
  | Resume i => run_worker i None s
  | Deliver i r => run_worker i (Some r) s
  | Cancel i => cancel_worker i s
  | Stop_clear => run_endpoint run_flag_clear s
  | Stop_drain => run_endpoint drain_url_queue s
  | Stream_get => run_endpoint message_queue_get s
  end.

(** A schedule run from a session, with everything done so far. *)
Fixpoint exec (sched : list choice) (s : session) (t : list action)
    : option (session * list action) :=
  match sched with
  | [] => Some (s, t)
  | c :: sched =>
      match step c s with
      | Some (s', t') => exec sched s' (t ++ t')
      | None => None
      end
  end.

End Crawler.

(** [crawl], lines 177-224: the objects of a new session, the first item and
    the workers. *)
Definition crawl_constants (base_url : string) (max_depth : Z) : params :=
  Params base_url max_depth 8 0.1%float.

Definition max_crawlers : nat := 2.

Definition new_session (base_url : string) (n : nat) : session :=
  Session (Queue.put (Item base_url 0) Queue.new) true ∅ Queue.new
    {| wait := 0.25%float; consecutive_failures := 0 |}
    (replicate n At_run_flag).

(** ** The registry and the endpoints *)

(** An entry of [sessions]: the dictionary [set_session] stores, with the
    argument of the [crawl] task created along with it, and the objects that
    task publishes under "message_queue", "url_queue" and "run_flag" once it
    runs ([None] before). *)
Record entry := Entry {
  entry_url : string;
  entry_max_depth : Z;
  entry_crawl : option session
}.

(** The body of a reply, [{"key": ...}] or [{"status": ...}]. *)
Inductive reply :=
| Key (key : string)
| Status (status : string).

(** [set_session]; [session_key] is the uuid drawn. *)
Definition set_session (session_key url : string) (max_depth : Z)
    (sessions : gmap string entry) : reply * gmap string entry :=
  (Key session_key, <[session_key := Entry url max_depth None]> sessions).

(** [crawl] up to [url_queue.join()]. *)
Definition crawl (session_key : string) (sessions : gmap string entry)
    : result (gmap string entry) :=
  match sessions !! session_key with
  | None => Raise (KeyError session_key)
  | Some e =>
      Ok (<[session_key :=
              Entry (entry_url e) (entry_max_depth e)
                (Some (new_session (entry_url e) max_crawlers))]> sessions)
  end.

(** [stop_session].  [others] is what the other tasks do to the session
    while the endpoint sleeps. *)
Definition stop_session (others : session → session) (session_key : string)
    (sessions : gmap string entry) : result reply * gmap string entry :=
  match sessions !! session_key with
  | None => (Raise (KeyError session_key), sessions)
  | Some e =>
      match entry_crawl e with
      | None => (Raise (KeyError "url_queue"), sessions)
      | Some s =>
          let s := snd (fst (run_flag_clear s)) in
          let s := others s in
          let '(r, s, _) := drain_url_queue s in
          let sessions :=
            <[session_key :=
                Entry (entry_url e) (entry_max_depth e) (Some s)]> sessions in
          match r with
          | Ok _ => (Ok (Status "Success"), sessions)
          | Raise err => (Raise err, sessions)
          | Pending => (Pending, sessions)
          end
      end
  end.

(** [data_stream] up to the response: the queue [event_generator] reads. *)
Definition data_stream (session_key : string) (sessions : gmap string entry)
    : result (Queue.t message) :=
  match sessions !! session_key with
  | None => Raise (KeyError session_key)
  | Some e =>
      match entry_crawl e with
      | None => Raise (KeyError "message_queue")
      | Some s => Ok (message_queue s)
      end
  end.

(** ** What a run shows *)

Definition added (a : action) : option string :=
  match a with Visited_add u => Some u | _ => None end.

(** A first attempt: the request that opens the retry loop of an item. *)
Definition fetched (a : action) : option string :=
  match a with
  | Get u attempts => if attempts =? 1 then Some u else None
  | _ => None
  end.

(** The requests for [u], and the events. *)
Definition requested (u : string) (a : action) : bool :=
  match a with Get u' _ => bool_decide (u' = u) | _ => false end.

Definition is_event (a : action) : bool :=
  match a with Put_message _ => true | _ => false end.

(** The URL a worker has claimed and not yet requested. *)
Definition sleeping (f : frame) : option string :=
  match f with At_sleep u _ => Some u | _ => None end.

(** The URL a worker has claimed and not yet let go. *)
Definition holding (f : frame) : option string :=
  match f with
  | At_sleep u _ | At_get u _ _ | At_backoff u _ _ _ => Some u
  | _ => None
  end.

(** The URL of a request, first attempt or retry. *)
Definition requested_url (a : action) : option string :=
  match a with Get u _ => Some u | _ => None end.

(** The worker has taken an item and not yet acknowledged or dropped it. *)
Definition holds_item (f : frame) : bool :=
  match f with
  | At_sleep _ _ | At_get _ _ _ | At_backoff _ _ _ _ => true
  | _ => false
  end.

Definition attempts_ok (f : frame) : Prop :=
  match f with
  | At_get _ _ attempts | At_backoff _ _ attempts _ => 1 <= attempts
  | _ => True
  end.

(** What holds of a session and its trace all along a run. *)
Record invariant (s : session) (t : list action) : Prop := {
  inv_visited : visited s = list_to_set (omap added t);
  inv_added : NoDup (omap added t);
  inv_fetched : NoDup (omap fetched t ++ omap sleeping (workers s));
  inv_claimed : ∀ u, u ∈ omap fetched t ++ omap sleeping (workers s) →
                     u ∈ visited s;
  inv_holders : NoDup (omap holding (workers s));
  inv_held : ∀ u, u ∈ omap holding (workers s) → u ∈ visited s;
  inv_requested : ∀ u, u ∈ omap requested_url t → u ∈ visited s;
  inv_attempts : Forall attempts_ok (workers s);
  inv_pending :
    Z.of_nat (length (Queue.items (url_queue s)))
    + Z.of_nat (length (List.filter holds_item (workers s)))
    <= Queue.unfinished_tasks (url_queue s)
}.

(** ** Names for what the steps leave behind *)

(** The frontier after one [task_done]. *)
Definition acked (q : Queue.t item) : Queue.t item :=
  Queue.Make (Queue.items q) (Queue.unfinished_tasks q - 1).

(** The set [links] of line 364. *)
Definition found_links (p : params) (hrefs : list string) : gset string :=
  list_to_set (List.filter (String.prefix (base_url p)) hrefs).

(** The items lines 376-379 put on the frontier. *)
Definition new_items (p : params) (hrefs : list string) (d : Z) (s : session)
    : list item :=
  (λ link, Item link (d + 1)) <$> elements (found_links p hrefs ∖ visited s).

(** ** A small site to run the crawler on *)

Definition site : string := "http://site.test/".
Definition page_a : string := "http://site.test/a".
Definition page_b : string := "http://site.test/b".
Definition page_c : string := "http://site.test/c".
Definition elsewhere : string := "http://other.test/".

Definition site_params : params := crawl_constants site 2.
Definition site_session : session := new_session site max_crawlers.

(** Worker 0 passes the run flag, takes the origin, claims it, sleeps and
    sends the first request. *)
Definition first_request : list choice :=
  [Resume 0%nat; Resume 0%nat; Resume 0%nat].

(** Both workers go once round the loop up to their request. *)
Definition both_request : list choice :=
  [Resume 0%nat; Resume 0%nat; Resume 1%nat; Resume 1%nat;
   Resume 0%nat; Resume 1%nat].

(** The origin links to two pages and to another site; both pages link to a
    third one, which is then queued twice and claimed once. *)
Definition diamond : list choice :=
  first_request
  ++ [Deliver 0%nat (Response 200 [page_a; page_b; elsewhere; site])]
  ++ both_request
  ++ [Deliver 0%nat (Response 200 [page_c]);
      Deliver 1%nat (Response 200 [page_c; site])]
  ++ [Resume 0%nat; Resume 0%nat; Resume 1%nat].

(** The origin answers 503 every time. *)
Definition always_503 : list choice :=
  first_request
  ++ concat (replicate 9 [Deliver 0%nat (Response 503 []); Resume 0%nat]).

(** A crawl of depth 0: the origin links to a page, which comes to the head
    of the frontier at depth 1 while worker 0 waits for an item. *)
Definition shallow_params : params := crawl_constants site 0.

Definition shallow : list choice :=
  first_request ++ [Deliver 0%nat (Response 200 [page_a]); Resume 0%nat].

(** The session and the trace a schedule leads to, from a new session. *)
Definition state_after (p : params) (sched : list choice) (n : nat) : session :=
  match exec p sched (new_session (base_url p) n) [] with
  | Some (s, _) => s
  | None => new_session (base_url p) n
  end.

Definition trace_after (p : params) (sched : list choice) (n : nat)
    : list action :=
  match exec p sched (new_session (base_url p) n) [] with
  | Some (_, t) => t
  | None => []
  end.

(** Worker 0 has sent its first request for the origin. *)
Definition requesting : session := state_after site_params first_request 2.

(** The origin has answered 503 nine times and worker 0 has slept after the
    ninth. *)
Definition worn_out : list choice :=
  first_request
  ++ concat (replicate 8 [Deliver 0%nat (Response 503 []); Resume 0%nat])
  ++ [Deliver 0%nat (Response 503 [])].

(** A registry with one running session, and the same once stopped. *)
Definition one_session : gmap string entry :=
  <["k" := Entry site 2 (Some site_session)]> ∅.



(** The specification's [SessionNotFound]: a failure the client is told
    about rather than an internal error, which for a FastAPI endpoint is an
    [HTTPException]. *)
Definition client_visible_failure {A} (r : result A) : Prop :=
  ∃ status_code, r = Raise (HTTPException status_code).

(** Unfolds the primitives of [M]. *)
Ltac unfold_M :=
  unfold mbind, M_bind, mret, M_ret, raise, print, run_flag_wait,
    run_flag_clear, url_queue_get, url_queue_get_nowait, url_queue_put,
    url_queue_task_done, message_queue_put, get_visited, visited_add,
    client_get, await_backoff_calculator.

(** ** The steps as a relation *)

(** The worker is at the head of the retry loop with [attempts = a]: after
    the sleep that follows the claim, or after a backoff sleep. *)
Definition retrying (f : frame) (u : string) (d a : Z) : Prop :=
  (f = At_sleep u d ∧ a = 0) ∨ (∃ w, f = At_backoff u d a w).

(** What one step of a worker does, from frame to frame, in a session where
    [task_done] has something to acknowledge. *)
Inductive worker_move (p : params) (s : session)
    : frame → frame → session → list action → Prop :=
| Move_flag :
    run_flag s = true →
    worker_move p s At_run_flag At_url_queue s []
| Move_over_depth it its :
    Queue.items (url_queue s) = it :: its →
    max_depth p < depth it →
    worker_move p s At_url_queue At_run_flag
      (with_url_queue
         (Queue.Make its (Queue.unfinished_tasks (url_queue s) - 1)) s)
      [Task_done; Printed (Over_max_depth (depth it))]
| Move_seen it its :
    Queue.items (url_queue s) = it :: its →
    depth it <= max_depth p →
    url it ∈ visited s →
    worker_move p s At_url_queue At_run_flag
      (with_url_queue
         (Queue.Make its (Queue.unfinished_tasks (url_queue s) - 1)) s)
      [Printed Already_seen; Task_done]
| Move_claim it its :
    Queue.items (url_queue s) = it :: its →
    depth it <= max_depth p →
    url it ∉ visited s →
    worker_move p s At_url_queue (At_sleep (url it) (depth it))
      (with_visited ({[url it]} ∪ visited s)
         (with_url_queue
            (Queue.Make its (Queue.unfinished_tasks (url_queue s))) s))
      [Visited_add (url it)]
| Move_exhausted f u d a :
    retrying f u d a →
    max_attempts p < a →
    worker_move p s f At_run_flag
      (with_url_queue (acked (url_queue s)) s)
      [Task_done; Printed Max_attempts_reached]
| Move_request f u d a :
    retrying f u d a →
    a <= max_attempts p →
    worker_move p s f (At_get u d (a + 1)) s [Get u (a + 1)]
| Move_success u d a c hrefs :
    is_success c = true →
    worker_move p s (At_get u d a) At_run_flag
      (Session
         (Queue.Make
            (Queue.items (url_queue s) ++ new_items p hrefs d s)
            (Queue.unfinished_tasks (url_queue s)
             + Z.of_nat (length (new_items p hrefs d s)) - 1))
         (run_flag s) (visited s)
         (Queue.put (Message u (elements (found_links p hrefs)) d)
            (message_queue s))
         (fst (backoff_calculator (backoff s) false (min_wait p)))
         (workers s))
      (Put_message (Message u (elements (found_links p hrefs)) d)
         :: (Put_url <$> new_items p hrefs d s) ++ [Task_done])
| Move_skip u d a c :
    c ∈ skip_codes →
    worker_move p s (At_get u d a) At_run_flag
      (with_url_queue (acked (url_queue s))
         (with_message_queue
            (Queue.put (Message u [] d) (message_queue s)) s))
      [Printed (Request_failed c u); Put_message (Message u [] d); Task_done]
| Move_backoff u d a c :
    c ∈ backoff_codes →
    worker_move p s (At_get u d a)
      (At_backoff u d a
         (snd (backoff_calculator (backoff s) true (min_wait p))))
      (with_backoff (fst (backoff_calculator (backoff s) true (min_wait p))) s)
      [Printed (Request_failed c u); Printed Backing_off]
| Move_unhandled u d a c :
    is_success c = false → c ∉ skip_codes → c ∉ backoff_codes →
    worker_move p s (At_get u d a) At_run_flag s
      [Printed (Request_failed c u); Printed (Unhandled_error_code c)]
| Move_transport u d a :
    worker_move p s (At_get u d a) (Finished RequestError) s [].

(** What one step of the session does. *)
Inductive session_move (p : params) (s : session)
    : session → list action → Prop :=
| Step_worker i f f' s1 t :
    workers s !! i = Some f →
    worker_move p s f f' s1 t →
    session_move p s (with_workers (<[i := f']> (workers s)) s1) t
| Step_cancel i f :
    workers s !! i = Some f →
    (∀ e, f ≠ Finished e) →
    session_move p s
      (with_workers (<[i := Finished CancelledError]> (workers s)) s) []
| Step_clear :
    session_move p s (with_run_flag false s) []
| Step_drain :
    session_move p s
      (with_url_queue
         (Queue.Make []
            (Queue.unfinished_tasks (url_queue s)
             - Z.of_nat (length (Queue.items (url_queue s))))) s)
      (replicate (length (Queue.items (url_queue s))) Task_done)
| Step_stream m ms :
    Queue.items (message_queue s) = m :: ms →
    session_move p s
      (with_message_queue
         (Queue.Make ms (Queue.unfinished_tasks (message_queue s))) s)
      [].

(** ** Where the crawler goes *)

(** [u] starts with the base URL. *)
Definition on_site (p : params) (u : string) : Prop :=
  String.prefix (base_url p) u = true.

(** A frontier item: a URL of the site, at depth 0 or one below a page
    within the depth limit. *)
Definition item_ok (p : params) (it : item) : Prop :=
  on_site p (url it)
  ∧ 0 <= depth it
  ∧ (depth it = 0 ∨ depth it <= max_depth p + 1).

(** A worker: what it holds is a URL of the site within the depth limit, its
    attempts are between 1 and [max_attempts + 1], and if its task has ended
    it was by a transport error or a cancellation. *)
Definition frame_ok (p : params) (f : frame) : Prop :=
  match f with
  | At_sleep u d => on_site p u ∧ 0 <= d <= max_depth p
  | At_get u d a | At_backoff u d a _ =>
      on_site p u ∧ 0 <= d <= max_depth p ∧ 1 <= a <= max_attempts p + 1
  | Finished e => e = RequestError ∨ e = CancelledError
  | _ => True
  end.

Definition action_ok (p : params) (a : action) : Prop :=
  match a with
  | Get u attempts => on_site p u ∧ 1 <= attempts <= max_attempts p + 1
  | Put_message m =>
      on_site p (msg_visited m)
      ∧ 0 <= msg_depth m <= max_depth p
      ∧ Forall (on_site p) (msg_links m)
  | Put_url it => item_ok p it ∧ 1 <= depth it <= max_depth p + 1
  | Visited_add u => on_site p u
  | _ => True
  end.

Record tidy (p : params) (s : session) (t : list action) : Prop := {
  tidy_items : Forall (item_ok p) (Queue.items (url_queue s));
  tidy_frames : Forall (frame_ok p) (workers s);
  tidy_trace : Forall (action_ok p) t
}.

(** ** Events, requests and unfinished tasks *)

(** The event an action puts on the message queue. *)
Definition emitted (a : action) : option message :=
  match a with Put_message m => Some m | _ => None end.

(** A request with its attempt number. *)
Definition request_pair (a : action) : option (string * Z) :=
  match a with Get u attempts => Some (u, attempts) | _ => None end.

(** The attempt numbers of the requests for [u]. *)
Definition attempt_of (u : string) (a : action) : option Z :=
  match a with
  | Get u' attempts => if decide (u' = u) then Some attempts else None
  | _ => None
  end.

(** The value of [attempts] in a worker's frame. *)
Definition progress (f : frame) : Z :=
  match f with
  | At_get _ _ attempts | At_backoff _ _ attempts _ => attempts
  | _ => 0
  end.

(** The unfinished tasks that are neither on the frontier nor with a
    worker: the items that were let go without [task_done]. *)
Definition lost (s : session) : Z :=
  Queue.unfinished_tasks (url_queue s)
  - Z.of_nat (length (Queue.items (url_queue s)))
  - Z.of_nat (length (List.filter holds_item (workers s))).

(** Events reach the stream in the order they were put, none lost: what was
    put is what was taken followed by what is on the queue. *)
Definition in_order (s : session) (t : list action) : Prop :=
  (∃ taken, omap emitted t = taken ++ Queue.items (message_queue s))
  ∧ Queue.unfinished_tasks (message_queue s)
    = Z.of_nat (length (omap emitted t)).

(** The URLs with an event and the URLs workers hold are all different, and
    have been visited. *)
Definition reported_once (s : session) (t : list action) : Prop :=
  NoDup ((msg_visited <$> omap emitted t) ++ omap holding (workers s))
  ∧ ∀ m, m ∈ omap emitted t → msg_visited m ∈ visited s.

(** No request is repeated, and the requests for a URL that a worker holds
    are numbered up to the worker's [attempts]. *)
Definition numbered (s : session) (t : list action) : Prop :=
  NoDup (omap request_pair t)
  ∧ ∀ i f u a, workers s !! i = Some f → holding f = Some u →
               (u, a) ∈ omap request_pair t → a <= progress f.

(** ** The end of a crawl and of the application *)

(** [task.cancel()] and the wait for the task to end: a task that has ended
    keeps its exception, any other ends with [CancelledError], which the
    [crawler] loop does not catch. *)
Definition cancelled (f : frame) : frame :=
  match f with
  | Finished e => Finished e
  | _ => Finished CancelledError
  end.

(** The cancel loop and the [gather] of [crawl] (lines 234-236) and of
    [lifespan] (lines 56-58) on the workers of one session. *)
Definition cancel_workers (s : session) : session :=
  with_workers (cancelled <$> workers s) s.

(** [crawl] from [url_queue.join()] on: the join waits ([None]) while the
    count of unfinished tasks is above zero. *)
Definition crawl_end (s : session) : option session :=
  if Queue.unfinished_tasks (url_queue s) >? 0
  then None
  else Some (cancel_workers s).

(** [lifespan] after the [yield].  [all_crawlers] holds the workers of the
    sessions whose [crawl] task has run; session keys are drawn fresh, so
    these are the sessions the registry has published. *)
Definition lifespan (sessions : gmap string entry) : gmap string entry :=
  (λ e, Entry (entry_url e) (entry_max_depth e)
          (cancel_workers <$> entry_crawl e)) <$> sessions.

(** A worker that waits for the run flag, or whose task has ended. *)
Definition parked (f : frame) : Prop :=
  f = At_run_flag ∨ ∃ e, f = Finished e.

(** ** A stop while a request is under way *)





(** * Properties *)

(** ** The steps, one by one *)

Lemma task_done_ok (q : Queue.t item) :
  0 < Queue.unfinished_tasks q → Queue.task_done q = Ok (acked q).
Proof.
  intros H. unfold Queue.task_done.
  destruct (Z.leb_spec (Queue.unfinished_tasks q) 0); [lia | done].
Qed.

Lemma claim_over_depth p it s :
  max_depth p < depth it → 0 < Queue.unfinished_tasks (url_queue s) →
  claim p it s =
    (Ok At_run_flag, with_url_queue (acked (url_queue s)) s,
     [Task_done; Printed (Over_max_depth (depth it))]).
Proof.
  intros Hd Hq. unfold claim. unfold_M.
  destruct (Z.gtb_spec (depth it) (max_depth p)); [| lia].
  by rewrite task_done_ok.
Qed.

Lemma claim_seen p it s :
  depth it <= max_depth p → url it ∈ visited s →
  0 < Queue.unfinished_tasks (url_queue s) →
  claim p it s =
    (Ok At_run_flag, with_url_queue (acked (url_queue s)) s,
     [Printed Already_seen; Task_done]).
Proof.
  intros Hd Hv Hq. unfold claim. unfold_M.
  destruct (Z.gtb_spec (depth it) (max_depth p)); [lia |].
  rewrite bool_decide_eq_true_2 by done.
  by rewrite task_done_ok.
Qed.

Lemma claim_new p it s :
  depth it <= max_depth p → url it ∉ visited s →
  claim p it s =
    (Ok (At_sleep (url it) (depth it)),
     with_visited ({[url it]} ∪ visited s) s, [Visited_add (url it)]).
Proof.
  intros Hd Hv. unfold claim. unfold_M.
  destruct (Z.gtb_spec (depth it) (max_depth p)); [lia |].
  by rewrite bool_decide_eq_false_2.
Qed.

Lemma attempt_exhausted p u d a s :
  max_attempts p < a → 0 < Queue.unfinished_tasks (url_queue s) →
  attempt p u d a s =
    (Ok At_run_flag, with_url_queue (acked (url_queue s)) s,
     [Task_done; Printed Max_attempts_reached]).
Proof.
  intros Ha Hq. unfold attempt. unfold_M.
  destruct (Z.gtb_spec a (max_attempts p)); [| lia].
  by rewrite task_done_ok.
Qed.

Lemma attempt_request p u d a s :
  a <= max_attempts p →
  attempt p u d a s = (Ok (At_get u d (a + 1)), s, [Get u (a + 1)]).
Proof.
  intros Ha. unfold attempt. unfold_M.
  by destruct (Z.gtb_spec a (max_attempts p)); [lia |].
Qed.

Lemma for_each_put (links : list string) (d : Z) (s : session) :
  for_each links (λ link, url_queue_put (Item link d)) s =
    (Ok (),
     with_url_queue
       (Queue.Make (Queue.items (url_queue s) ++ ((λ link, Item link d) <$> links))
          (Queue.unfinished_tasks (url_queue s) + Z.of_nat (length links))) s,
     (λ link, Put_url (Item link d)) <$> links).
Proof.
  revert s. induction links as [| link links IH]; intros s; simpl.
  - unfold_M. destruct s as [[]]. simpl. unfold with_url_queue. simpl.
    by rewrite app_nil_r, Z.add_0_r.
  - unfold_M. rewrite IH. destruct s as [[]]. unfold with_url_queue, Queue.put. simpl.
    rewrite <- app_assoc. simpl. repeat (f_equal; try lia).
Qed.

Lemma handle_success p u d a c hrefs s :
  is_success c = true → 0 < Queue.unfinished_tasks (url_queue s) →
  handle p u d a (Response c hrefs) s =
    (Ok At_run_flag,
     Session
       (Queue.Make
          (Queue.items (url_queue s) ++ new_items p hrefs d s)
          (Queue.unfinished_tasks (url_queue s)
           + Z.of_nat (length (new_items p hrefs d s)) - 1))
       (run_flag s) (visited s)
       (Queue.put (Message u (elements (found_links p hrefs)) d) (message_queue s))
       (backoff_calculator (backoff s) false (min_wait p)).1
       (workers s),
     Put_message (Message u (elements (found_links p hrefs)) d)
       :: (Put_url <$> new_items p hrefs d s) ++ [Task_done]).
Proof.
  intros Hc Hq. unfold handle. rewrite Hc.
  fold (found_links p hrefs).
  unfold mbind, M_bind, await_backoff_calculator.
  destruct (backoff_calculator (backoff s) false (min_wait p)) as [b w].
  unfold message_queue_put, get_visited.
  rewrite for_each_put. unfold url_queue_task_done.
  rewrite task_done_ok by (simpl; lia).
  unfold mret, M_ret, new_items, acked, with_url_queue, with_message_queue, with_backoff.
  simpl. by rewrite length_fmap, <- list_fmap_compose.
Qed.

Lemma handle_skip p u d a c hrefs s :
  c ∈ skip_codes → 0 < Queue.unfinished_tasks (url_queue s) →
  handle p u d a (Response c hrefs) s =
    (Ok At_run_flag,
     with_url_queue (acked (url_queue s))
       (with_message_queue (Queue.put (Message u [] d) (message_queue s)) s),
     [Printed (Request_failed c u); Put_message (Message u [] d); Task_done]).
Proof.
  intros Hc Hq. unfold handle.
  assert (is_success c = false) as ->.
  { unfold skip_codes in Hc. unfold is_success.
    repeat (apply elem_of_cons in Hc as [-> | Hc]; [done |]).
    by apply elem_of_nil in Hc. }
  rewrite bool_decide_eq_true_2 by done.
  unfold_M. simpl. by rewrite task_done_ok.
Qed.

Lemma handle_backoff p u d a c hrefs s :
  c ∈ backoff_codes →
  handle p u d a (Response c hrefs) s =
    (Ok (At_backoff u d a (backoff_calculator (backoff s) true (min_wait p)).2),
     with_backoff (backoff_calculator (backoff s) true (min_wait p)).1 s,
     [Printed (Request_failed c u); Printed Backing_off]).
Proof.
  intros Hc. unfold handle.
  assert (is_success c = false ∧ c ∉ skip_codes) as [-> Hs].
  { unfold backoff_codes in Hc. unfold is_success, skip_codes.
    repeat (apply elem_of_cons in Hc as [-> | Hc]; [split; [done | compute_done] |]).
    by apply elem_of_nil in Hc. }
  rewrite bool_decide_eq_false_2, bool_decide_eq_true_2 by done.
  unfold_M. by destruct (backoff_calculator _ _ _).
Qed.

Lemma handle_unhandled p u d a c hrefs s :
  is_success c = false → c ∉ skip_codes → c ∉ backoff_codes →
  handle p u d a (Response c hrefs) s =
    (Ok At_run_flag, s,
     [Printed (Request_failed c u); Printed (Unhandled_error_code c)]).
Proof.
  intros Hc Hs Hb. unfold handle. rewrite Hc.
  by rewrite !bool_decide_eq_false_2.
Qed.

Lemma handle_transport p u d a s :
  handle p u d a Transport_error s = (Raise RequestError, s, []).
Proof. done. Qed.

(** ** Lists of workers *)

Lemma insert_split {A} (l : list A) i x y :
  l !! i = Some x →
  ∃ l1 l2, l = l1 ++ x :: l2 ∧ <[i := y]> l = l1 ++ y :: l2.
Proof.
  intros Hi. exists (take i l), (drop (S i) l). split.
  - by rewrite take_drop_middle.
  - apply insert_take_drop. by eapply lookup_lt_Some.
Qed.

Lemma omap_insert_perm {A B} (g : A → option B) (l : list A) i x y :
  l !! i = Some x →
  ∃ rest, omap g l ≡ₚ option_list (g x) ++ rest
          ∧ omap g (<[i := y]> l) ≡ₚ option_list (g y) ++ rest.
Proof.
  intros Hi. destruct (insert_split l i x y Hi) as (l1 & l2 & Hl & ->).
  rewrite Hl. exists (omap g l1 ++ omap g l2).
  rewrite !omap_app. simpl.
  split.
  - destruct (g x); simpl; [by rewrite Permutation_middle | done].
  - destruct (g y); simpl; [by rewrite Permutation_middle | done].
Qed.

Lemma filter_insert_length {A} (h : A → bool) (l : list A) i x y :
  l !! i = Some x →
  Z.of_nat (length (List.filter h (<[i := y]> l)))
  = Z.of_nat (length (List.filter h l)) - Z.b2z (h x) + Z.b2z (h y).
Proof.
  intros Hi. destruct (insert_split l i x y Hi) as (l1 & l2 & Hl & ->).
  rewrite Hl, !List.filter_app, !length_app. simpl.
  destruct (h x), (h y); simpl; lia.
Qed.

Lemma filter_lookup_pos {A} (h : A → bool) (l : list A) i x :
  l !! i = Some x → h x = true → 0 < Z.of_nat (length (List.filter h l)).
Proof.
  intros Hi Hx.
  rewrite <- (take_drop_middle l i x) by done.
  rewrite List.filter_app, length_app. simpl. rewrite Hx. simpl. lia.
Qed.

Lemma NoDup_submseteq_inv {A} (l k : list A) : l ⊆+ k → NoDup k → NoDup l.
Proof.
  intros [k' Hk]%submseteq_Permutation Hnd. rewrite Hk in Hnd.
  by apply NoDup_app in Hnd as [? _].
Qed.

(** ** The invariant *)

Lemma omap_added_put (l : list item) : omap added (Put_url <$> l) = [].
Proof. induction l; simpl; done. Qed.

Lemma omap_fetched_put (l : list item) : omap fetched (Put_url <$> l) = [].
Proof. induction l; simpl; done. Qed.

Lemma omap_requested_put (l : list item) :
  omap requested_url (Put_url <$> l) = [].
Proof. induction l; simpl; done. Qed.

Lemma omap_added_task_done n : omap added (replicate n Task_done) = [].
Proof. induction n; simpl; done. Qed.

Lemma omap_fetched_task_done n : omap fetched (replicate n Task_done) = [].
Proof. induction n; simpl; done. Qed.

Lemma omap_requested_task_done n :
  omap requested_url (replicate n Task_done) = [].
Proof. induction n; simpl; done. Qed.

(** What a step must do for the invariant to go on holding: it adds to the
    visited set what its trace says and nothing that was there; the URLs it
    opens a retry loop for, or lets a worker sleep on, were slept on before
    or have just been added; likewise for the URLs workers hold; and it
    requests only URLs that a worker held. *)
Lemma invariant_step s t s' t' :
  invariant s t →
  visited s' = list_to_set (omap added t') ∪ visited s →
  NoDup (omap added t') →
  (∀ u, u ∈ omap added t' → u ∉ visited s) →
  omap fetched t' ++ omap sleeping (workers s')
    ⊆+ omap added t' ++ omap sleeping (workers s) →
  omap holding (workers s') ⊆+ omap added t' ++ omap holding (workers s) →
  (∀ u, u ∈ omap requested_url t' → u ∈ omap holding (workers s)) →
  Forall attempts_ok (workers s') →
  Z.of_nat (length (Queue.items (url_queue s')))
  + Z.of_nat (length (List.filter holds_item (workers s')))
  <= Queue.unfinished_tasks (url_queue s') →
  invariant s' (t ++ t').
Proof.
  intros [Hv Ha Hf Hc Hh Hhv Hr Hat Hp] Hv' Ha' Hnew Hsub Hhold Hreq Hat' Hp'.
  assert (omap fetched (t ++ t') ++ omap sleeping (workers s')
          ⊆+ omap added t' ++ omap fetched t ++ omap sleeping (workers s))
    as Hall.
  { rewrite omap_app, <- app_assoc.
    trans (omap fetched t ++ omap added t' ++ omap sleeping (workers s)).
    - by apply submseteq_skips_l.
    - apply Permutation_submseteq.
      by rewrite !app_assoc, (Permutation_app_comm (omap fetched t)). }
  assert (visited s ⊆ visited s') as Hgrow
    by (rewrite Hv'; apply union_subseteq_r).
  assert (∀ u, u ∈ omap added t' → u ∈ visited s') as Hadded.
  { intros u Hu. rewrite Hv'. apply elem_of_union_l.
    by apply elem_of_list_to_set. }
  split; try done.
  - rewrite Hv', Hv, omap_app, list_to_set_app_L. apply union_comm_L.
  - rewrite omap_app. apply NoDup_app. split_and!; [done | | done].
    intros u Hu Hu'. apply (Hnew u Hu'). rewrite Hv.
    by apply elem_of_list_to_set.
  - eapply NoDup_submseteq_inv; [exact Hall |].
    apply NoDup_app. split_and!; [done | | done].
    intros u Hu Hu'. by apply (Hnew u Hu), Hc.
  - intros u Hu.
    eapply elem_of_submseteq in Hu; [| exact Hall].
    apply elem_of_app in Hu as [Hu | Hu]; [by apply Hadded |].
    by apply Hgrow, Hc.
  - eapply NoDup_submseteq_inv; [exact Hhold |].
    apply NoDup_app. split_and!; [done | | done].
    intros u Hu Hu'. by apply (Hnew u Hu), Hhv.
  - intros u Hu.
    eapply elem_of_submseteq in Hu; [| exact Hhold].
    apply elem_of_app in Hu as [Hu | Hu]; [by apply Hadded |].
    by apply Hgrow, Hhv.
  - intros u Hu. rewrite omap_app in Hu.
    apply elem_of_app in Hu as [Hu | Hu]; [by apply Hgrow, Hr |].
    by apply Hgrow, Hhv, Hreq.
Qed.

(** The same for a step of worker [i] from frame [f] to frame [f']. *)
Lemma invariant_worker s t i f f' s' t' :
  invariant s t →
  workers s !! i = Some f →
  workers s' = workers s →
  visited s' = list_to_set (omap added t') ∪ visited s →
  NoDup (omap added t') →
  (∀ u, u ∈ omap added t' → u ∉ visited s) →
  omap fetched t' ++ option_list (sleeping f')
    ⊆+ omap added t' ++ option_list (sleeping f) →
  option_list (holding f') ⊆+ omap added t' ++ option_list (holding f) →
  (∀ u, u ∈ omap requested_url t' → holding f = Some u) →
  attempts_ok f' →
  Z.of_nat (length (Queue.items (url_queue s')))
  + Z.of_nat (length (List.filter holds_item (workers s)))
  - Z.b2z (holds_item f) + Z.b2z (holds_item f')
  <= Queue.unfinished_tasks (url_queue s') →
  invariant (with_workers (<[i := f']> (workers s)) s') (t ++ t').
Proof.
  intros Hinv Hi Hw Hv' Ha' Hnew Hsub Hhold Hreq Hat' Hp'.
  apply (invariant_step s); try done; simpl.
  - destruct (omap_insert_perm sleeping _ i f f' Hi) as (rest & -> & ->).
    rewrite !app_assoc. by apply submseteq_app.
  - destruct (omap_insert_perm holding _ i f f' Hi) as (rest & -> & ->).
    rewrite !app_assoc. by apply submseteq_app.
  - intros u Hu. apply list_elem_of_omap. exists f. split; [| by apply Hreq].
    by eapply list_elem_of_lookup_2.
  - apply Forall_insert; [apply Hinv | done].
  - rewrite (filter_insert_length _ _ _ f) by done. lia.
Qed.

(** A step of a worker that adds nothing to the visited set, opens no retry
    loop and sends no request. *)
Lemma invariant_worker_quiet s t i f f' s' t' :
  invariant s t →
  workers s !! i = Some f →
  workers s' = workers s →
  visited s' = visited s →
  omap added t' = [] →
  omap fetched t' = [] →
  omap requested_url t' = [] →
  sleeping f' = None →
  option_list (holding f') ⊆+ option_list (holding f) →
  attempts_ok f' →
  Z.of_nat (length (Queue.items (url_queue s')))
  + Z.of_nat (length (List.filter holds_item (workers s)))
  - Z.b2z (holds_item f) + Z.b2z (holds_item f')
  <= Queue.unfinished_tasks (url_queue s') →
  invariant (with_workers (<[i := f']> (workers s)) s') (t ++ t').
Proof.
  intros Hinv Hi Hw Hv Ha Hf Hr Hs Hh Hat Hp.
  apply (invariant_worker s t i f); try done;
    rewrite ?Ha, ?Hf, ?Hr, ?Hs; simpl; try done.
  - by rewrite Hv, union_empty_l_L.
  - constructor.
  - by intros u ?%elem_of_nil.
  - apply submseteq_nil_l.
  - by intros u ?%elem_of_nil.
Qed.

(** A step that leaves the workers and the visited set alone. *)
Lemma invariant_quiet s t s' t' :
  invariant s t →
  workers s' = workers s →
  visited s' = visited s →
  omap added t' = [] →
  omap fetched t' = [] →
  omap requested_url t' = [] →
  Z.of_nat (length (Queue.items (url_queue s')))
  + Z.of_nat (length (List.filter holds_item (workers s)))
  <= Queue.unfinished_tasks (url_queue s') →
  invariant s' (t ++ t').
Proof.
  intros Hinv Hw Hv Ha Hf Hr Hp.
  apply (invariant_step s); rewrite ?Ha, ?Hf, ?Hr, ?Hw; simpl; try done.
  - by rewrite Hv, union_empty_l_L.
  - constructor.
  - by intros u ?%elem_of_nil.
  - by intros u ?%elem_of_nil.
  - apply Hinv.
Qed.

(** The drain loop empties the frontier and acknowledges each item it takes,
    when the frontier has no more items than unfinished tasks. *)
Lemma drain_spec (n : nat) (s : session) :
  (length (Queue.items (url_queue s)) ≤ n)%nat →
  Z.of_nat (length (Queue.items (url_queue s)))
    <= Queue.unfinished_tasks (url_queue s) →
  drain n s =
    (Ok (),
     with_url_queue
       (Queue.Make []
          (Queue.unfinished_tasks (url_queue s)
           - Z.of_nat (length (Queue.items (url_queue s))))) s,
     replicate (length (Queue.items (url_queue s))) Task_done).
Proof.
  revert s. induction n as [| n IH]; intros [[its unf] fl vis mq b ws];
    simpl; intros Hn Hunf.
  - destruct its; simpl in *; [| lia].
    unfold Queue.empty, with_url_queue; simpl. by rewrite Z.sub_0_r.
  - destruct its as [| it its]; simpl in *.
    + unfold Queue.empty, with_url_queue; simpl. by rewrite Z.sub_0_r.
    + unfold Queue.empty; simpl. unfold_M. unfold Queue.get_nowait; simpl.
      rewrite task_done_ok by (simpl; lia).
      unfold with_url_queue, acked; simpl.
      rewrite IH by (simpl; lia). unfold with_url_queue; simpl.
      repeat (f_equal; try lia).
Qed.

Lemma drain_url_queue_spec (s : session) :
  Z.of_nat (length (Queue.items (url_queue s)))
    <= Queue.unfinished_tasks (url_queue s) →
  drain_url_queue s =
    (Ok (),
     with_url_queue
       (Queue.Make []
          (Queue.unfinished_tasks (url_queue s)
           - Z.of_nat (length (Queue.items (url_queue s))))) s,
     replicate (length (Queue.items (url_queue s))) Task_done).
Proof. intros H. unfold drain_url_queue. by apply drain_spec. Qed.

(** A worker that holds an item keeps the count of unfinished tasks above
    zero: its [task_done] does not raise. *)
Lemma pending_positive s t i f :
  invariant s t → workers s !! i = Some f → holds_item f = true →
  0 < Queue.unfinished_tasks (url_queue s).
Proof.
  intros Hinv Hi Hf. pose proof (inv_pending _ _ Hinv).
  pose proof (filter_lookup_pos holds_item _ _ _ Hi Hf). lia.
Qed.

Ltac quiet_worker s t i f :=
  apply (invariant_worker_quiet s t i f); simpl;
  rewrite ?omap_app, ?omap_added_put, ?omap_fetched_put, ?omap_requested_put;
  try done; try lia; try apply submseteq_nil_l.

Lemma step_invariant p c s t s' t' :
  invariant s t → step p c s = Some (s', t') → invariant s' (t ++ t').
Proof.
  intros Hinv Hstep. pose proof (inv_pending _ _ Hinv) as Hp.
  destruct c as [i | i r | i | | |]; simpl in Hstep.
  - unfold run_worker in Hstep.
    destruct (workers s !! i) as [f |] eqn:Hi; simpl in Hstep; [| done].
    destruct f as [| | u d | u d a | u d a w | e]; simpl in Hstep; try done.
    + unfold mbind, M_bind, run_flag_wait in Hstep.
      destruct (run_flag s); simpl in Hstep; [| done].
      injection Hstep as <- <-. quiet_worker s t i At_run_flag.
    + unfold mbind, M_bind, url_queue_get, Queue.get_nowait in Hstep.
      destruct (Queue.items (url_queue s)) as [| it its] eqn:Hits; [done |].
      simpl in Hp.
      destruct (Z.lt_ge_cases (max_depth p) (depth it)) as [Hd | Hd].
      { rewrite claim_over_depth in Hstep by (simpl; lia).
        injection Hstep as <- <-. quiet_worker s t i At_url_queue. }
      destruct (decide (url it ∈ visited s)) as [Hv | Hv].
      { rewrite claim_seen in Hstep by (simpl; done || lia).
        injection Hstep as <- <-. quiet_worker s t i At_url_queue. }
      rewrite claim_new in Hstep by (simpl; done || lia).
      injection Hstep as <- <-.
      apply (invariant_worker s t i At_url_queue); simpl; try done.
      * by rewrite union_empty_r_L.
      * apply NoDup_singleton.
      * by intros u' ->%list_elem_of_singleton.
      * by intros u' ?%elem_of_nil.
      * lia.
    + destruct (Z.lt_ge_cases (max_attempts p) 0) as [Ha | Ha].
      * rewrite attempt_exhausted in Hstep
          by (done || by eapply pending_positive).
        injection Hstep as <- <-. quiet_worker s t i (At_sleep u d).
      * rewrite attempt_request in Hstep by done.
        injection Hstep as <- <-.
        apply (invariant_worker s t i (At_sleep u d)); simpl; try done.
        -- by rewrite union_empty_l_L.
        -- constructor.
        -- by intros u' ?%elem_of_nil.
        -- by intros u' ->%list_elem_of_singleton.
        -- lia.
    + assert (1 <= a) as Ha1.
      { pose proof (inv_attempts _ _ Hinv) as Hat.
        by apply (proj1 (Forall_lookup _ _) Hat i _ Hi). }
      destruct (Z.lt_ge_cases (max_attempts p) a) as [Ha | Ha].
      * rewrite attempt_exhausted in Hstep
          by (done || by eapply pending_positive).
        injection Hstep as <- <-. quiet_worker s t i (At_backoff u d a w).
      * rewrite attempt_request in Hstep by done.
        injection Hstep as <- <-.
        assert ((a + 1 =? 1) = false) as Hne
          by (destruct (Z.eqb_spec (a + 1) 1); [lia | done]).
        apply (invariant_worker s t i (At_backoff u d a w)); simpl;
          rewrite ?Hne; simpl; try done.
        -- by rewrite union_empty_l_L.
        -- constructor.
        -- by intros u' ?%elem_of_nil.
        -- by intros u' ->%list_elem_of_singleton.
        -- lia.
        -- lia.
  - unfold run_worker in Hstep.
    destruct (workers s !! i) as [f |] eqn:Hi; simpl in Hstep; [| done].
    destruct f as [| | u d | u d a | u d a w | e]; simpl in Hstep; try done.
    assert (1 <= a) as Ha1.
    { pose proof (inv_attempts _ _ Hinv) as Hat.
      by apply (proj1 (Forall_lookup _ _) Hat i _ Hi). }
    assert (0 < Queue.unfinished_tasks (url_queue s)) as Hpos
      by by eapply pending_positive.
    destruct r as [c hrefs |].
    + destruct (is_success c) eqn:Hc.
      { rewrite handle_success in Hstep by done.
        injection Hstep as <- <-. quiet_worker s t i (At_get u d a).
        rewrite length_app. lia. }
      destruct (decide (c ∈ skip_codes)) as [Hs | Hs].
      { rewrite handle_skip in Hstep by done.
        injection Hstep as <- <-. quiet_worker s t i (At_get u d a). }
      destruct (decide (c ∈ backoff_codes)) as [Hb | Hb].
      { rewrite handle_backoff in Hstep by done.
        injection Hstep as <- <-. quiet_worker s t i (At_get u d a). }
      rewrite handle_unhandled in Hstep by done.
      injection Hstep as <- <-. quiet_worker s t i (At_get u d a).
    + rewrite handle_transport in Hstep. injection Hstep as <- <-.
      quiet_worker s t i (At_get u d a).
  - unfold cancel_worker in Hstep.
    destruct (workers s !! i) as [f |] eqn:Hi; simpl in Hstep; [| done].
    assert (invariant
              (with_workers (<[i := Finished CancelledError]> (workers s)) s)
              (t ++ [])).
    { quiet_worker s t i f. destruct (holds_item f); simpl; lia. }
    by destruct f; try done; injection Hstep as <- <-.
  - injection Hstep as <- <-.
    by apply (invariant_quiet s).
  - unfold run_endpoint in Hstep.
    rewrite drain_url_queue_spec in Hstep by lia.
    injection Hstep as <- <-.
    apply (invariant_quiet s); simpl;
      rewrite ?omap_added_task_done, ?omap_fetched_task_done,
        ?omap_requested_task_done; try done.
    lia.
  - unfold run_endpoint, message_queue_get, Queue.get_nowait in Hstep.
    destruct (Queue.items (message_queue s)); [done |].
    injection Hstep as <- <-.
    by apply (invariant_quiet s).
Qed.

Lemma exec_invariant p sched s t s' t' :
  invariant s t → exec p sched s t = Some (s', t') → invariant s' t'.
Proof.
  revert s t. induction sched as [| c sched IH]; intros s t Hinv Hexec;
    simpl in Hexec.
  - by injection Hexec as <- <-.
  - destruct (step p c s) as [[s1 t1] |] eqn:Hstep; [| done].
    eapply IH; [| exact Hexec]. by eapply step_invariant.
Qed.

Lemma exec_trace p sched s t s' t' :
  exec p sched s t = Some (s', t') → ∃ t'', t' = t ++ t''.
Proof.
  revert s t. induction sched as [| c sched IH]; intros s t Hexec;
    simpl in Hexec.
  - injection Hexec as <- <-. exists []. by rewrite app_nil_r.
  - destruct (step p c s) as [[s1 t1] |]; [| done].
    destruct (IH _ _ Hexec) as [t'' ->]. exists (t1 ++ t'').
    by rewrite app_assoc.
Qed.

Lemma new_session_invariant base n : invariant (new_session base n) [].
Proof.
  assert (omap sleeping (replicate n At_run_flag) = []) as Hs
    by (induction n; simpl; done).
  assert (omap holding (replicate n At_run_flag) = []) as Hg
    by (clear Hs; induction n; simpl; done).
  assert (List.filter holds_item (replicate n At_run_flag) = []) as Hh
    by (clear Hs Hg; induction n; simpl; done).
  split; simpl; rewrite ?Hs, ?Hg, ?Hh; simpl; try done; try constructor.
  - by intros u ?%elem_of_nil.
  - by intros u ?%elem_of_nil.
  - by intros u ?%elem_of_nil.
  - by apply Forall_replicate.
Qed.

(** Every session that a run of [crawl]'s workers, the stop endpoint and the
    stream can produce satisfies the invariant. *)
Lemma run_invariant p n sched s t :
  exec p sched (new_session (base_url p) n) [] = Some (s, t) → invariant s t.
Proof. apply exec_invariant, new_session_invariant. Qed.

Lemma run_visited_grows p sched s t s' t' :
  invariant s t → exec p sched s t = Some (s', t') → visited s ⊆ visited s'.
Proof.
  intros Hinv Hexec.
  pose proof (exec_invariant _ _ _ _ _ _ Hinv Hexec) as Hinv'.
  destruct (exec_trace _ _ _ _ _ _ Hexec) as [t'' ->].
  rewrite (inv_visited _ _ Hinv), (inv_visited _ _ Hinv'), omap_app,
    list_to_set_app_L.
  apply union_subseteq_l.
Qed.

(** ** Single steps of a worker in a running session *)

Lemma run_worker_ok p i reply s f m f' s' t' :
  workers s !! i = Some f → crawler p f reply = Some m →
  m s = (Ok f', s', t') →
  run_worker p i reply s
  = Some (with_workers (<[i := f']> (workers s')) s', t').
Proof. intros Hi Hm Hs. unfold run_worker. rewrite Hi; simpl. by rewrite Hm; simpl; rewrite Hs. Qed.

Lemma run_worker_raise p i reply s f m e s' t' :
  workers s !! i = Some f → crawler p f reply = Some m →
  m s = (Raise e, s', t') →
  run_worker p i reply s
  = Some (with_workers (<[i := Finished e]> (workers s')) s', t').
Proof. intros Hi Hm Hs. unfold run_worker. rewrite Hi; simpl. by rewrite Hm; simpl; rewrite Hs. Qed.

Lemma take_item p it its s :
  Queue.items (url_queue s) = it :: its →
  (next_url ← url_queue_get; claim p next_url) s
  = claim p it
      (with_url_queue
         (Queue.Make its (Queue.unfinished_tasks (url_queue s))) s).
Proof.
  intros Hits. unfold mbind, M_bind, url_queue_get, Queue.get_nowait.
  rewrite Hits. by destruct (claim p it _) as [[r s'] t'].
Qed.

(** A transport-level error ends the worker that waited for the response:
    the exception is not one the loop catches. *)
Lemma transport_error_raises p i u d a s :
  workers s !! i = Some (At_get u d a) →
  step p (Deliver i Transport_error) s
  = Some (with_workers (<[i := Finished RequestError]> (workers s)) s, []).
Proof. intros Hi. unfold step. by eapply run_worker_raise. Qed.

(** A status outside the two lists leaves the frontier as it is: the item is
    let go with its task still counted as unfinished. *)
Lemma unhandled_status_keeps_item_unfinished p i u d a c hrefs s :
  workers s !! i = Some (At_get u d a) →
  is_success c = false → c ∉ skip_codes → c ∉ backoff_codes →
  step p (Deliver i (Response c hrefs)) s
  = Some (with_workers (<[i := At_run_flag]> (workers s)) s,
          [Printed (Request_failed c u); Printed (Unhandled_error_code c)]).
Proof.
  intros Hi Hc Hs Hb. unfold step.
  eapply run_worker_ok; [done | done |]. by apply handle_unhandled.
Qed.

(** After [max_attempts] requests that ended in a backoff, one more is
    sent. *)
Lemma one_more_request p i u d w s :
  workers s !! i = Some (At_backoff u d (max_attempts p) w) →
  step p (Resume i) s
  = Some (with_workers
            (<[i := At_get u d (max_attempts p + 1)]> (workers s)) s,
          [Get u (max_attempts p + 1)]).
Proof.
  intros Hi. unfold step.
  eapply run_worker_ok; [done | done |]. by apply attempt_request.
Qed.

(** C4: an item deeper than [max_depth] is acknowledged and dropped as soon
    as it is taken from the frontier, before the visited set is looked at:
    the step sends no request, emits no event and leaves the visited set as
    it was, whether or not the URL is in it. *)
Theorem over_depth_discarded p n sched s t i it its :
  exec p sched (new_session (base_url p) n) [] = Some (s, t) →
  workers s !! i = Some At_url_queue →
  Queue.items (url_queue s) = it :: its →
  max_depth p < depth it →
  ∃ s', step p (Resume i) s
        = Some (s', [Task_done; Printed (Over_max_depth (depth it))])
    ∧ url_queue s'
      = Queue.Make its (Queue.unfinished_tasks (url_queue s) - 1)
    ∧ visited s' = visited s
    ∧ message_queue s' = message_queue s
    ∧ workers s' = <[i := At_run_flag]> (workers s).
Proof.
  intros Hrun Hi Hits Hd.
  pose proof (inv_pending _ _ (run_invariant _ _ _ _ _ Hrun)) as Hp.
  rewrite Hits in Hp; simpl in Hp.
  eexists. split.
  - simpl. eapply run_worker_ok; [done | done |].
    rewrite (take_item _ it its) by done.
    apply claim_over_depth; simpl; lia.
  - done.
Qed.

Lemma over_depth_discarded_witness :
  ∃ s', step shallow_params (Resume 0%nat) (state_after shallow_params shallow 2)
        = Some (s', [Task_done; Printed (Over_max_depth 1)])
    ∧ url_queue s'
      = Queue.Make []
          (Queue.unfinished_tasks
             (url_queue (state_after shallow_params shallow 2)) - 1)
    ∧ visited s' = visited (state_after shallow_params shallow 2)
    ∧ message_queue s' = message_queue (state_after shallow_params shallow 2)
    ∧ workers s'
      = <[0%nat := At_run_flag]> (workers (state_after shallow_params shallow 2)).
Proof.
  apply (over_depth_discarded shallow_params 2 shallow
           (state_after shallow_params shallow 2)
           (trace_after shallow_params shallow 2) 0%nat (Item page_a 1) []).
  - vm_compute; reflexivity.
  - vm_compute; reflexivity.
  - vm_compute; reflexivity.
  - vm_compute; reflexivity.
Defined.

(** C5: a response whose status is one of 301, 302, 400, 401, 403, 404 makes
    the worker put exactly one event, with no links, for the URL on the
    message queue, acknowledge the item and leave the retry loop: it is back
    at the top of its loop and has sent no further request. *)
Theorem skip_status_reported p n sched s t i u d a c hrefs :
  exec p sched (new_session (base_url p) n) [] = Some (s, t) →
  workers s !! i = Some (At_get u d a) →
  c ∈ skip_codes →
  ∃ s', step p (Deliver i (Response c hrefs)) s
        = Some (s', [Printed (Request_failed c u);
                     Put_message (Message u [] d); Task_done])
    ∧ message_queue s' = Queue.put (Message u [] d) (message_queue s)
    ∧ url_queue s' = acked (url_queue s)
    ∧ visited s' = visited s
    ∧ workers s' = <[i := At_run_flag]> (workers s).
Proof.
  intros Hrun Hi Hc.
  pose proof (pending_positive _ _ _ _ (run_invariant _ _ _ _ _ Hrun) Hi eq_refl).
  eexists. split.
  - simpl. eapply run_worker_ok; [done | done |]. by apply handle_skip.
  - done.
Qed.

Lemma skip_status_reported_witness :
  ∃ s', step site_params (Deliver 0%nat (Response 404 [page_a])) requesting
        = Some (s', [Printed (Request_failed 404 site);
                     Put_message (Message site [] 0); Task_done])
    ∧ message_queue s' = Queue.put (Message site [] 0) (message_queue requesting)
    ∧ url_queue s' = acked (url_queue requesting)
    ∧ visited s' = visited requesting
    ∧ workers s' = <[0%nat := At_run_flag]> (workers requesting).
Proof.
  apply (skip_status_reported site_params 2 first_request requesting
           (trace_after site_params first_request 2) 0%nat site 0 1 404 [page_a]).
  - vm_compute; reflexivity.
  - vm_compute; reflexivity.
  - compute_done.
Defined.

(** C10: after a 2xx response the event lists every [href] of the page that
    starts with the base URL, visited or not; the visited set is taken away
    only afterwards, and exactly the listed links that are not in it at that
    moment are put on the frontier, each once and at [depth + 1]. *)
Theorem success_reports_links p n sched s t i u d a c hrefs :
  exec p sched (new_session (base_url p) n) [] = Some (s, t) →
  workers s !! i = Some (At_get u d a) →
  is_success c = true →
  ∃ s' links queued,
    step p (Deliver i (Response c hrefs)) s
    = Some (s', Put_message (Message u links d)
                  :: (Put_url <$> queued) ++ [Task_done])
    ∧ (∀ h, h ∈ links ↔ h ∈ hrefs ∧ String.prefix (base_url p) h = true)
    ∧ (∀ it, it ∈ queued ↔
             url it ∈ links ∧ (url it ∉ visited s) ∧ depth it = d + 1)
    ∧ NoDup queued
    ∧ message_queue s' = Queue.put (Message u links d) (message_queue s)
    ∧ Queue.items (url_queue s') = Queue.items (url_queue s) ++ queued
    ∧ visited s' = visited s.
Proof.
  intros Hrun Hi Hc.
  pose proof (pending_positive _ _ _ _ (run_invariant _ _ _ _ _ Hrun) Hi eq_refl).
  assert (∀ h, h ∈ elements (found_links p hrefs)
               ↔ h ∈ hrefs ∧ String.prefix (base_url p) h = true) as Hlinks.
  { intros h. unfold found_links.
    by rewrite elem_of_elements, elem_of_list_to_set, list_elem_of_In,
      List.filter_In, <- list_elem_of_In. }
  eexists _, (elements (found_links p hrefs)), (new_items p hrefs d s).
  split_and!.
  - unfold step. eapply run_worker_ok; [done | done |]. by apply handle_success.
  - done.
  - intros [h k]. unfold new_items. rewrite list_elem_of_fmap. simpl. split.
    + intros (h' & [= -> ->] & Hh).
      apply elem_of_elements, elem_of_difference in Hh as [Hh Hv].
      by rewrite elem_of_elements.
    + intros (Hh & Hv & ->). exists h. split; [done |].
      apply elem_of_elements, elem_of_difference.
      by rewrite elem_of_elements in Hh.
  - unfold new_items. apply NoDup_fmap_2; [by intros ?? [=] | apply NoDup_elements].
  - done.
  - done.
  - done.
Qed.

Lemma success_reports_links_witness :
  ∃ s' links queued,
    step site_params (Deliver 0%nat (Response 200 [page_a; elsewhere; site]))
      requesting
    = Some (s', Put_message (Message site links 0)
                  :: (Put_url <$> queued) ++ [Task_done])
    ∧ (∀ h, h ∈ links ↔ h ∈ [page_a; elsewhere; site]
                         ∧ String.prefix (base_url site_params) h = true)
    ∧ (∀ it, it ∈ queued ↔
             url it ∈ links ∧ (url it ∉ visited requesting) ∧ depth it = 0 + 1)
    ∧ NoDup queued
    ∧ message_queue s' = Queue.put (Message site links 0) (message_queue requesting)
    ∧ Queue.items (url_queue s') = Queue.items (url_queue requesting) ++ queued
    ∧ visited s' = visited requesting.
Proof.
  apply (success_reports_links site_params 2 first_request requesting
           (trace_after site_params first_request 2) 0%nat site 0 1 200).
  - vm_compute; reflexivity.
  - vm_compute; reflexivity.
  - reflexivity.
Defined.

(** C7, as the code has it: whatever the status of a response, the worker
    that receives it goes on (to the top of its loop, or to the backoff sleep
    of the same item) and the other workers are left alone.  Only responses
    are covered: the handler of the retry loop catches [HTTPStatusError]
    alone. *)
Theorem response_never_raises p n sched s t i u d a c hrefs :
  exec p sched (new_session (base_url p) n) [] = Some (s, t) →
  workers s !! i = Some (At_get u d a) →
  ∃ s' t' f,
    step p (Deliver i (Response c hrefs)) s = Some (s', t')
    ∧ workers s' = <[i := f]> (workers s)
    ∧ (f = At_run_flag ∨ ∃ wait_time, f = At_backoff u d a wait_time).
Proof.
  intros Hrun Hi.
  pose proof (pending_positive _ _ _ _ (run_invariant _ _ _ _ _ Hrun) Hi eq_refl).
  unfold step.
  destruct (is_success c) eqn:Hc;
    [| destruct (decide (c ∈ skip_codes));
       [| destruct (decide (c ∈ backoff_codes))]].
  - eexists _, _, _. split_and!;
      [eapply run_worker_ok; [done | done | by apply handle_success] | done |].
    by left.
  - eexists _, _, _. split_and!;
      [eapply run_worker_ok; [done | done | by apply handle_skip] | done |].
    by left.
  - eexists _, _, _. split_and!;
      [eapply run_worker_ok; [done | done | by apply handle_backoff] | done |].
    right. by eexists.
  - eexists _, _, _. split_and!;
      [eapply run_worker_ok; [done | done | by apply handle_unhandled] | done |].
    by left.
Qed.

Lemma response_never_raises_witness :
  ∃ s' t' f,
    step site_params (Deliver 0%nat (Response 418 [])) requesting = Some (s', t')
    ∧ workers s' = <[0%nat := f]> (workers requesting)
    ∧ (f = At_run_flag ∨ ∃ wait_time, f = At_backoff site 0 1 wait_time).
Proof.
  apply (response_never_raises site_params 2 first_request requesting
           (trace_after site_params first_request 2) 0%nat site 0 1 418 []).
  - vm_compute; reflexivity.
  - vm_compute; reflexivity.
Defined.

(** C7 as stated fails: a transport-level error of the request is not an
    [HTTPStatusError]; it leaves the loop and ends the worker's task. *)
Lemma transport_error_ends_worker :
  (λ '(s, t), (workers s, Queue.unfinished_tasks (url_queue s), t))
    <$> exec site_params (first_request ++ [Deliver 0%nat Transport_error])
          site_session []
  = Some ([Finished RequestError; At_run_flag], 1,
          [Visited_add site; Get site 1]).
Proof. vm_compute; reflexivity. Qed.

(** The two ways the loop gives an item up.  When the attempts are used up
    the worker acknowledges the item, prints a line and puts no event.  When
    a response has a status that is neither 2xx nor in one of the two lists,
    the worker prints a line, puts no event and lets the item go. *)
Theorem abandoned_items p n sched s t i u d a :
  exec p sched (new_session (base_url p) n) [] = Some (s, t) →
  (∀ f, workers s !! i = Some f →
        (f = At_sleep u d ∧ a = 0) ∨ (∃ w, f = At_backoff u d a w) →
        max_attempts p < a →
        ∃ s', step p (Resume i) s
              = Some (s', [Task_done; Printed Max_attempts_reached])
          ∧ url_queue s' = acked (url_queue s)
          ∧ message_queue s' = message_queue s
          ∧ workers s' = <[i := At_run_flag]> (workers s))
  ∧ (∀ c hrefs, workers s !! i = Some (At_get u d a) →
        is_success c = false → c ∉ skip_codes → c ∉ backoff_codes →
        ∃ s' t', step p (Deliver i (Response c hrefs)) s = Some (s', t')
          ∧ Printed (Unhandled_error_code c) ∈ t'
          ∧ List.filter is_event t' = []
          ∧ message_queue s' = message_queue s
          ∧ workers s' = <[i := At_run_flag]> (workers s)).
Proof.
  intros Hrun. pose proof (run_invariant _ _ _ _ _ Hrun) as Hinv. split.
  - intros f Hi Hf Ha.
    assert (0 < Queue.unfinished_tasks (url_queue s)) as Hpos.
    { eapply pending_positive; [done | done |].
      by destruct Hf as [[-> _] | [w ->]]. }
    destruct Hf as [[-> ->] | [w ->]].
    + eexists. split; [unfold step |].
      * eapply run_worker_ok; [done | done |]. by apply attempt_exhausted.
      * done.
    + eexists. split; [unfold step |].
      * eapply run_worker_ok; [done | done |]. by apply attempt_exhausted.
      * done.
  - intros c hrefs Hi Hc Hs Hb.
    eexists _, _. split_and!.
    + unfold step. eapply run_worker_ok; [done | done |].
      by apply handle_unhandled.
    + do 2 constructor.
    + done.
    + done.
    + done.
Qed.

Lemma abandoned_items_witness :
  (∃ s', step site_params (Resume 0%nat) (state_after site_params worn_out 2)
         = Some (s', [Task_done; Printed Max_attempts_reached])
     ∧ url_queue s' = acked (url_queue (state_after site_params worn_out 2))
     ∧ message_queue s' = message_queue (state_after site_params worn_out 2)
     ∧ workers s'
       = <[0%nat := At_run_flag]>
           (workers (state_after site_params worn_out 2)))
  ∧ (∃ s' t', step site_params (Deliver 0%nat (Response 418 [])) requesting
              = Some (s', t')
       ∧ Printed (Unhandled_error_code 418) ∈ t'
       ∧ List.filter is_event t' = []
       ∧ message_queue s' = message_queue requesting
       ∧ workers s' = <[0%nat := At_run_flag]> (workers requesting)).
Proof.
  split.
  - apply (proj1 (abandoned_items site_params 2 worn_out
                    (state_after site_params worn_out 2)
                    (trace_after site_params worn_out 2) 0%nat site 0 9
                    ltac:(vm_compute; reflexivity))
             (At_backoff site 0 9 128%float)).
    + vm_compute; reflexivity.
    + right. by eexists.
    + reflexivity.
  - apply (proj2 (abandoned_items site_params 2 first_request requesting
                    (trace_after site_params first_request 2) 0%nat site 0 1
                    ltac:(vm_compute; reflexivity))).
    + vm_compute; reflexivity.
    + reflexivity.
    + compute_done.
    + compute_done.
Defined.

(** C6: an abandoned item is to be acknowledged before it is dropped, and
    every other way out of the loop does call [task_done]; the branch for a
    status the code has no list for (418 here) does not.  The worker prints
    its two lines and is back at the top of its loop, no event has been put,
    and the frontier still counts the item as unfinished. *)
Lemma unhandled_status_not_acknowledged :
  (λ '(s, t), (workers s, Queue.items (url_queue s),
               Queue.unfinished_tasks (url_queue s), t))
    <$> exec site_params (first_request ++ [Deliver 0%nat (Response 418 [])])
          site_session []
  = Some ([At_run_flag; At_run_flag], [], 1,
          [Visited_add site; Get site 1; Printed (Request_failed 418 site);
           Printed (Unhandled_error_code 418)]).
Proof. vm_compute; reflexivity. Qed.

(** C3: with [max_attempts = 8] the origin is requested nine times when it
    answers 503 every time; after the ninth the item is acknowledged and no
    event has been put. *)
Theorem nine_requests_for_eight_attempts :
  max_attempts site_params = 8
  ∧ (λ '(s, t), (length (List.filter (requested site) t),
                 List.filter is_event t,
                 Queue.unfinished_tasks (url_queue s)))
      <$> exec site_params always_503 site_session []
    = Some (9%nat, [], 0).
Proof. split; vm_compute; reflexivity. Qed.

(** ** The visited set *)

(** C1: in every run of a session, from [crawl]'s start, under any
    interleaving of its workers, the stop endpoint, the stream and
    cancellations:
    - no URL opens a retry loop twice: the first attempts are for distinct
      URLs;
    - every request, first attempt or retry, is for a URL that is in the
      visited set, and no two workers hold the same URL at a time;
    - [visited.add] is never run twice for the same URL, and the visited set
      is exactly what was added, so it only grows as the run goes on;
    - a worker that takes an item within the depth limit does the check and
      the insertion in one step: if the URL is in the set it acknowledges
      the item and goes back to the top of its loop without a request,
      otherwise it adds the URL and only then goes on to the sleep and the
      request. *)
Theorem no_url_fetched_twice p n sched s t :
  exec p sched (new_session (base_url p) n) [] = Some (s, t) →
  NoDup (omap fetched t)
  ∧ (∀ u, u ∈ omap requested_url t → u ∈ visited s)
  ∧ NoDup (omap holding (workers s))
  ∧ NoDup (omap added t)
  ∧ visited s = list_to_set (omap added t)
  ∧ (∀ sched' s' t', exec p sched' s t = Some (s', t') →
                     visited s ⊆ visited s')
  ∧ (∀ i it its,
       workers s !! i = Some At_url_queue →
       Queue.items (url_queue s) = it :: its →
       depth it <= max_depth p →
       (url it ∈ visited s →
        ∃ s', step p (Resume i) s = Some (s', [Printed Already_seen; Task_done])
          ∧ visited s' = visited s
          ∧ url_queue s'
            = Queue.Make its (Queue.unfinished_tasks (url_queue s) - 1)
          ∧ workers s' = <[i := At_run_flag]> (workers s))
       ∧ (url it ∉ visited s →
          ∃ s', step p (Resume i) s = Some (s', [Visited_add (url it)])
            ∧ visited s' = {[url it]} ∪ visited s
            ∧ url_queue s'
              = Queue.Make its (Queue.unfinished_tasks (url_queue s))
            ∧ workers s'
              = <[i := At_sleep (url it) (depth it)]> (workers s))).
Proof.
  intros Hrun. pose proof (run_invariant _ _ _ _ _ Hrun) as Hinv.
  split_and!.
  - pose proof (inv_fetched _ _ Hinv) as Hnd.
    by apply NoDup_app in Hnd as [? _].
  - apply Hinv.
  - apply Hinv.
  - apply Hinv.
  - apply Hinv.
  - intros sched' s' t'. by apply run_visited_grows.
  - intros i it its Hi Hits Hd.
    pose proof (inv_pending _ _ Hinv) as Hp. rewrite Hits in Hp; simpl in Hp.
    split; intros Hv.
    + eexists. split; [unfold step |].
      * eapply run_worker_ok; [done | done |].
        rewrite (take_item _ it its) by done.
        apply claim_seen; simpl; done || lia.
      * done.
    + eexists. split; [unfold step |].
      * eapply run_worker_ok; [done | done |].
        rewrite (take_item _ it its) by done.
        by apply claim_new.
      * done.
Qed.

Lemma no_url_fetched_twice_witness :
  NoDup (omap fetched (trace_after site_params diamond 2))
  ∧ NoDup (omap added (trace_after site_params diamond 2))
  ∧ ∃ s', step site_params (Resume 1%nat) (state_after site_params diamond 2)
          = Some (s', [Printed Already_seen; Task_done])
      ∧ visited s' = visited (state_after site_params diamond 2)
      ∧ url_queue s' = Queue.Make [] (2 - 1)
      ∧ workers s'
        = <[1%nat := At_run_flag]> (workers (state_after site_params diamond 2)).
Proof.
  destruct (no_url_fetched_twice site_params 2 diamond
              (state_after site_params diamond 2)
              (trace_after site_params diamond 2)
              ltac:(vm_compute; reflexivity))
    as (Hf & _ & _ & Ha & _ & _ & Hstep).
  split_and!; [exact Hf | exact Ha |].
  apply (Hstep 1%nat (Item page_c 2) []).
  - vm_compute; reflexivity.
  - vm_compute; reflexivity.
  - vm_compute. discriminate.
  - vm_compute. compute_done.
Defined.

(** ** The backoff controller *)

Lemma backoff_calculator_failed (b : Backoff) (m : float) :
  backoff_calculator b true m
  = ({| wait := (wait b * 2)%float;
        consecutive_failures := consecutive_failures b + 1 |},
     (wait b * 2)%float).
Proof. done. Qed.

Lemma backoff_calculator_succeeded (b : Backoff) (m : float) :
  backoff_calculator b false m
  = ({| wait := if PrimFloat.ltb m (wait b) then (wait b * 0.8)%float
                else wait b;
        consecutive_failures := 0 |},
     if PrimFloat.ltb m (wait b) then (wait b * 0.8)%float else wait b).
Proof. unfold backoff_calculator. by destruct (PrimFloat.ltb m (wait b)). Qed.

(** C2: from the wait a session starts with (0.25) and [crawl]'s [min_wait]
    (0.1), five calls that report a success leave a wait below [min_wait]:
    the product is stored as it is, nothing clamps it. *)
Theorem wait_falls_below_min_wait :
  wait (backoff site_session) = 0.25%float
  ∧ min_wait site_params = 0.1%float
  ∧ PrimFloat.ltb
      (wait (backoff_calls (backoff site_session) (min_wait site_params)
               [false; false; false; false; false]))
      (min_wait site_params) = true.
Proof. split_and!; vm_compute; reflexivity. Qed.

(** ** The endpoints *)

(** [set_session] followed by the first run of the [crawl] task it created
    leaves a session with the origin on the frontier and two workers at the
    top of their loop. *)
Lemma crawl_publishes session_key url max_depth sessions :
  crawl session_key (snd (set_session session_key url max_depth sessions))
  = Ok (<[session_key :=
            Entry url max_depth (Some (new_session url max_crawlers))]>
          sessions).
Proof.
  unfold crawl, set_session; simpl.
  by rewrite lookup_insert_eq, insert_insert_eq.
Qed.

(** In a stopped session whose workers are all parked, no worker can take a
    step: nothing happens to the session while [stop_session] sleeps. *)
Lemma stopped_session_idle p s i f r :
  run_flag s = false → workers s !! i = Some f →
  f = At_run_flag ∨ (∃ e, f = Finished e) →
  step p (Resume i) s = None ∧ step p (Deliver i r) s = None.
Proof.
  intros Hflag Hi Hf. unfold step, run_worker. rewrite Hi; simpl.
  destruct Hf as [-> | [e ->]]; simpl; [| done].
  unfold mbind, M_bind, run_flag_wait. by rewrite Hflag.
Qed.

(** C8, as the code has it: for a key that is not in the registry both
    endpoints end with the [KeyError] of the lookup, which nothing catches;
    for a key whose session [crawl] has published, [stop_session] empties the
    frontier, calls [task_done] once for each item it takes out and answers
    [{"status": "Success"}]. *)
Theorem stop_session_outcomes others session_key sessions :
  (sessions !! session_key = None →
   stop_session others session_key sessions
   = (Raise (KeyError session_key), sessions)
   ∧ data_stream session_key sessions = Raise (KeyError session_key))
  ∧ (∀ e s,
       sessions !! session_key = Some e →
       entry_crawl e = Some s →
       Z.of_nat (length (Queue.items
                           (url_queue (others (with_run_flag false s)))))
       <= Queue.unfinished_tasks (url_queue (others (with_run_flag false s))) →
       ∃ s',
         stop_session others session_key sessions
         = (Ok (Status "Success"),
            <[session_key := Entry (entry_url e) (entry_max_depth e) (Some s')]>
              sessions)
         ∧ url_queue s'
           = Queue.Make []
               (Queue.unfinished_tasks
                  (url_queue (others (with_run_flag false s)))
                - Z.of_nat (length (Queue.items
                     (url_queue (others (with_run_flag false s))))))
         ∧ s' = with_url_queue (url_queue s') (others (with_run_flag false s))).
Proof.
  split.
  - intros Hk. unfold stop_session, data_stream. by rewrite Hk.
  - intros e s Hk He Hq. unfold stop_session. rewrite Hk, He.
    unfold run_flag_clear; simpl.
    rewrite drain_url_queue_spec by done.
    eexists. split_and!; [done | done | done].
Qed.

Lemma stop_session_outcomes_witness :
  (stop_session id "elsewhere" one_session
   = (Raise (KeyError "elsewhere"), one_session)
   ∧ data_stream "elsewhere" one_session = Raise (KeyError "elsewhere"))
  ∧ ∃ s',
      stop_session id "k" one_session
      = (Ok (Status "Success"), <["k" := Entry site 2 (Some s')]> one_session)
      ∧ url_queue s' = Queue.Make [] (1 - Z.of_nat 1)
      ∧ s' = with_url_queue (url_queue s') (with_run_flag false site_session).
Proof.
  split.
  - apply (proj1 (stop_session_outcomes id "elsewhere" one_session)).
    vm_compute; reflexivity.
  - apply (proj2 (stop_session_outcomes id "k" one_session)
             (Entry site 2 (Some site_session)) site_session).
    + vm_compute; reflexivity.
    + reflexivity.
    + vm_compute. discriminate.
Defined.

(** C8 as stated fails: the failure for an unknown key is a bare [KeyError],
    not one the client is told about; the same holds between [set_session]
    and the first run of the [crawl] task it created. *)
Lemma unknown_key_is_key_error :
  fst (stop_session id "elsewhere" one_session) = Raise (KeyError "elsewhere")
  ∧ data_stream "elsewhere" one_session = Raise (KeyError "elsewhere")
  ∧ ¬ client_visible_failure (fst (stop_session id "elsewhere" one_session))
  ∧ ¬ client_visible_failure (data_stream "elsewhere" one_session)
  ∧ fst (stop_session id "k" (snd (set_session "k" site 2 ∅)))
    = Raise (KeyError "url_queue").
Proof.
  split_and!; try (vm_compute; reflexivity).
  - intros [c H]. vm_compute in H. discriminate.
  - intros [c H]. vm_compute in H. discriminate.
Qed.




(** * More of the program *)

(** ** Every step is one of the moves *)

Lemma step_moves p c s t s' t' :
  invariant s t → step p c s = Some (s', t') → session_move p s s' t'.
Proof.
  intros Hinv Hstep. pose proof (inv_pending _ _ Hinv) as Hp.
  destruct c as [i | i r | i | | |]; simpl in Hstep.
  - unfold run_worker in Hstep.
    destruct (workers s !! i) as [f |] eqn:Hi; simpl in Hstep; [| done].
    destruct f as [| | u d | u d a | u d a w | e]; simpl in Hstep; try done.
    + unfold mbind, M_bind, run_flag_wait in Hstep.
      destruct (run_flag s) eqn:Hflag; simpl in Hstep; [| done].
      injection Hstep as <- <-.
      exact (Step_worker p s i _ _ _ _ Hi (Move_flag p s Hflag)).
    + unfold mbind, M_bind, url_queue_get, Queue.get_nowait in Hstep.
      destruct (Queue.items (url_queue s)) as [| it its] eqn:Hits; [done |].
      simpl in Hp.
      destruct (Z.lt_ge_cases (max_depth p) (depth it)) as [Hd | Hd].
      { rewrite claim_over_depth in Hstep by (simpl; lia).
        injection Hstep as <- <-.
        exact (Step_worker p s i _ _ _ _ Hi (Move_over_depth p s it its Hits Hd)). }
      destruct (decide (url it ∈ visited s)) as [Hv | Hv].
      { rewrite claim_seen in Hstep by (simpl; done || lia).
        injection Hstep as <- <-.
        exact (Step_worker p s i _ _ _ _ Hi (Move_seen p s it its Hits Hd Hv)). }
      rewrite claim_new in Hstep by (simpl; done || lia).
      injection Hstep as <- <-.
      exact (Step_worker p s i _ _ _ _ Hi (Move_claim p s it its Hits Hd Hv)).
    + destruct (Z.lt_ge_cases (max_attempts p) 0) as [Ha | Ha].
      * rewrite attempt_exhausted in Hstep
          by (done || by eapply pending_positive).
        injection Hstep as <- <-.
        exact (Step_worker p s i _ _ _ _ Hi
                 (Move_exhausted p s _ u d 0 (or_introl (conj eq_refl eq_refl)) Ha)).
      * rewrite attempt_request in Hstep by done.
        injection Hstep as <- <-.
        exact (Step_worker p s i _ _ _ _ Hi
                 (Move_request p s _ u d 0 (or_introl (conj eq_refl eq_refl)) Ha)).
    + destruct (Z.lt_ge_cases (max_attempts p) a) as [Ha | Ha].
      * rewrite attempt_exhausted in Hstep
          by (done || by eapply pending_positive).
        injection Hstep as <- <-.
        exact (Step_worker p s i _ _ _ _ Hi
                 (Move_exhausted p s _ u d a
                    (or_intror (ex_intro _ w eq_refl)) Ha)).
      * rewrite attempt_request in Hstep by done.
        injection Hstep as <- <-.
        exact (Step_worker p s i _ _ _ _ Hi
                 (Move_request p s _ u d a
                    (or_intror (ex_intro _ w eq_refl)) Ha)).
  - unfold run_worker in Hstep.
    destruct (workers s !! i) as [f |] eqn:Hi; simpl in Hstep; [| done].
    destruct f as [| | u d | u d a | u d a w | e]; simpl in Hstep; try done.
    assert (0 < Queue.unfinished_tasks (url_queue s)) as Hpos
      by by eapply pending_positive.
    destruct r as [c hrefs |].
    + destruct (is_success c) eqn:Hc.
      { rewrite handle_success in Hstep by done.
        injection Hstep as <- <-.
        exact (Step_worker p s i _ _ _ _ Hi (Move_success p s u d a c hrefs Hc)). }
      destruct (decide (c ∈ skip_codes)) as [Hs | Hs].
      { rewrite handle_skip in Hstep by done.
        injection Hstep as <- <-.
        exact (Step_worker p s i _ _ _ _ Hi (Move_skip p s u d a c Hs)). }
      destruct (decide (c ∈ backoff_codes)) as [Hb | Hb].
      { rewrite handle_backoff in Hstep by done.
        injection Hstep as <- <-.
        exact (Step_worker p s i _ _ _ _ Hi (Move_backoff p s u d a c Hb)). }
      rewrite handle_unhandled in Hstep by done.
      injection Hstep as <- <-.
      exact (Step_worker p s i _ _ _ _ Hi (Move_unhandled p s u d a c Hc Hs Hb)).
    + rewrite handle_transport in Hstep. injection Hstep as <- <-.
      exact (Step_worker p s i _ _ _ _ Hi (Move_transport p s u d a)).
  - unfold cancel_worker in Hstep.
    destruct (workers s !! i) as [f |] eqn:Hi; simpl in Hstep; [| done].
    assert (session_move p s
              (with_workers (<[i := Finished CancelledError]> (workers s)) s)
              [] ∨ ∃ e, f = Finished e) as [Hm | [e ->]].
    { destruct f; try (left; by eapply Step_cancel); right; by eexists. }
    + by destruct f; try done; injection Hstep as <- <-.
    + done.
  - injection Hstep as <- <-. apply Step_clear.
  - unfold run_endpoint in Hstep.
    rewrite drain_url_queue_spec in Hstep by lia.
    injection Hstep as <- <-. apply Step_drain.
  - unfold run_endpoint, message_queue_get, Queue.get_nowait in Hstep.
    destruct (Queue.items (message_queue s)) eqn:Hm; [done |].
    injection Hstep as <- <-. exact (Step_stream p s _ _ Hm).
Qed.

(** Induction over the runs of a session. *)
Lemma run_induction (P : session → list action → Prop) p n :
  P (new_session (base_url p) n) [] →
  (∀ s t s' t', invariant s t → P s t → session_move p s s' t' →
                P s' (t ++ t')) →
  ∀ sched s t,
    exec p sched (new_session (base_url p) n) [] = Some (s, t) → P s t.
Proof.
  intros Hinit Hstep sched.
  assert (∀ s0 t0 s t, invariant s0 t0 → P s0 t0 →
            exec p sched s0 t0 = Some (s, t) → P s t) as Hgen.
  { induction sched as [| c sched IH]; intros s0 t0 s t Hinv HP Hexec;
      simpl in Hexec.
    - by injection Hexec as <- <-.
    - destruct (step p c s0) as [[s1 t1] |] eqn:Hs; [| done].
      eapply IH; [| | exact Hexec].
      + by eapply step_invariant.
      + eapply Hstep; [done | done |]. by eapply step_moves. }
  intros s t. apply Hgen; [apply new_session_invariant | done].
Qed.

(** ** The crawler stays on the site, within depth and attempts *)

Lemma prefix_refl (u : string) : String.prefix u u = true.
Proof.
  induction u as [| a u IH]; simpl; [done |].
  by destruct (Ascii.ascii_dec a a).
Qed.

Lemma found_links_on_site p hrefs h :
  h ∈ found_links p hrefs → on_site p h.
Proof.
  unfold found_links, on_site.
  rewrite elem_of_list_to_set, list_elem_of_In, List.filter_In. by intros [_ ?].
Qed.

Lemma new_items_ok p hrefs d s :
  0 <= d <= max_depth p →
  Forall (λ it, item_ok p it ∧ 1 <= depth it <= max_depth p + 1)
    (new_items p hrefs d s).
Proof.
  intros Hd. apply Forall_forall. intros it Hit. unfold new_items in Hit.
  apply list_elem_of_fmap in Hit as (h & -> & Hh).
  apply elem_of_elements, elem_of_difference in Hh as [Hh _].
  unfold item_ok; simpl. split_and!; try lia.
  by eapply found_links_on_site.
Qed.

Lemma tidy_step p s t s' t' :
  tidy p s t → session_move p s s' t' → tidy p s' (t ++ t').
Proof.
  intros [Hits Hfs Ht] Hmove.
  destruct Hmove as [i f f' s1 t1 Hi Hw | i f Hi Hf | | | m ms Hm].
  - pose proof (proj1 (Forall_lookup _ _) Hfs i f Hi) as Hfok.
    assert (Forall (item_ok p) (Queue.items (url_queue s1))
            ∧ frame_ok p f' ∧ Forall (action_ok p) t1) as (H1 & H2 & H3).
    { destruct Hw as [Hflag | it its Hq Hd | it its Hq Hd Hv | it its Hq Hd Hv
                      | f u d a Hr Ha | f u d a Hr Ha | u d a c hrefs Hc
                      | u d a c Hc | u d a c Hc | u d a c Hc Hs Hb | u d a];
        simpl in *; try rewrite Hq in Hits.
      - done.
      - apply Forall_cons in Hits as [_ Hits]. by repeat constructor.
      - apply Forall_cons in Hits as [_ Hits]. by repeat constructor.
      - apply Forall_cons in Hits as [(Hu & H0 & _) Hits].
        split_and!; try done; by repeat constructor.
      - by repeat constructor.
      - destruct Hr as [[-> ->] | [w ->]]; simpl in *;
          (split_and!; try tauto; try lia; repeat constructor;
           try tauto; lia).
      - destruct Hfok as (Hu & Hd & Ha).
        pose proof (new_items_ok p hrefs d s Hd) as Hnew.
        split_and!; [| done |].
        + apply Forall_app. split; [done |].
          eapply Forall_impl; [exact Hnew | by intros it [? _]].
        + constructor.
          * simpl. split_and!; try done; try lia. apply Forall_forall. intros h Hh.
            apply elem_of_elements in Hh. by eapply found_links_on_site.
          * apply Forall_app. split; [| by repeat constructor].
            apply Forall_fmap. eapply Forall_impl; [exact Hnew | done].
      - destruct Hfok as (Hu & Hd & Ha). split_and!; [done | done |].
        repeat (constructor; simpl); try done; lia.
      - split_and!; try tauto; by repeat constructor.
      - split_and!; try done; by repeat constructor.
      - split_and!; [done | by left | done]. }
    split; simpl.
    + done.
    + by apply Forall_insert.
    + by apply Forall_app.
  - split; simpl; [done | | by rewrite app_nil_r].
    apply Forall_insert; [done | by right].
  - split; simpl; [done | done | by rewrite app_nil_r].
  - split; simpl; [constructor | done |].
    apply Forall_app. split; [done |]. by apply Forall_replicate.
  - split; simpl; [done | done | by rewrite app_nil_r].
Qed.

Lemma run_tidy p n sched s t :
  exec p sched (new_session (base_url p) n) [] = Some (s, t) → tidy p s t.
Proof.
  apply (run_induction (tidy p)).
  - split; simpl.
    + repeat constructor; try done. apply prefix_refl.
    + by apply Forall_replicate.
    + constructor.
  - intros s0 t0 s' t' _. apply tidy_step.
Qed.

(** ** Unfinished tasks *)

Lemma worker_move_workers p s f f' s1 t :
  worker_move p s f f' s1 t → workers s1 = workers s.
Proof. by destruct 1. Qed.

Lemma worker_move_visited p s f f' s1 t :
  worker_move p s f f' s1 t → visited s ⊆ visited s1.
Proof. destruct 1; simpl; try done. apply union_subseteq_r. Qed.

Lemma session_move_lost p s t s' t' :
  invariant s t → session_move p s s' t' → lost s <= lost s'.
Proof.
  intros Hinv Hmove. unfold lost.
  destruct Hmove as [i f f' s1 t1 Hi Hw | i f Hi Hf | | | m ms Hm]; simpl.
  - rewrite (filter_insert_length _ _ _ f) by done.
    destruct Hw as [Hflag | it its Hq Hd | it its Hq Hd Hv | it its Hq Hd Hv
                    | f u d a Hr Ha | f u d a Hr Ha | u d a c hrefs Hc
                    | u d a c Hc | u d a c Hc | u d a c Hc Hs Hb | u d a];
      simpl; rewrite ?Hq, ?length_app; simpl;
      try (destruct Hr as [[-> ->] | [w ->]]; simpl); lia.
  - rewrite (filter_insert_length _ _ _ f) by done.
    destruct (holds_item f); simpl; lia.
  - lia.
  - lia.
  - lia.
Qed.

Lemma exec_lost p sched s t s' t' :
  invariant s t → exec p sched s t = Some (s', t') → lost s <= lost s'.
Proof.
  revert s t. induction sched as [| c sched IH]; intros s t Hinv Hexec;
    simpl in Hexec.
  - injection Hexec as <- _. lia.
  - destruct (step p c s) as [[s1 t1] |] eqn:Hs; [| done].
    trans (lost s1).
    + eapply session_move_lost; [done |]. by eapply step_moves.
    + eapply IH; [| exact Hexec]. by eapply step_invariant.
Qed.

Lemma idle_when_nothing_unfinished s t :
  invariant s t → Queue.unfinished_tasks (url_queue s) = 0 →
  Queue.items (url_queue s) = []
  ∧ ∀ i f, workers s !! i = Some f → holding f = None.
Proof.
  intros Hinv H0. pose proof (inv_pending _ _ Hinv) as Hp. split.
  - destruct (Queue.items (url_queue s)); [done | simpl in Hp; lia].
  - intros i f Hi. destruct (holds_item f) eqn:Hf.
    + pose proof (filter_lookup_pos holds_item _ _ _ Hi Hf). lia.
    + by destruct f.
Qed.

(** X5: [url_queue.join()] returns only when nothing is left to do.  In
    every run the count of unfinished tasks is at least the number of items
    on the frontier plus the number of workers that hold one; so it is never
    negative, and when it is zero the frontier is empty and every worker is
    waiting for the run flag or for an item, or has ended. *)
Theorem join_only_when_idle p n sched s t :
  exec p sched (new_session (base_url p) n) [] = Some (s, t) →
  0 <= lost s
  ∧ 0 <= Queue.unfinished_tasks (url_queue s)
  ∧ (Queue.unfinished_tasks (url_queue s) = 0 →
     Queue.items (url_queue s) = []
     ∧ ∀ i f, workers s !! i = Some f → holding f = None).
Proof.
  intros Hrun. pose proof (run_invariant _ _ _ _ _ Hrun) as Hinv.
  pose proof (inv_pending _ _ Hinv) as Hp. unfold lost.
  split_and!; [lia | lia |]. by apply (idle_when_nothing_unfinished s t).
Qed.

Lemma join_only_when_idle_witness :
  0 <= lost (state_after site_params always_503 2)
  ∧ 0 <= Queue.unfinished_tasks (url_queue (state_after site_params always_503 2))
  ∧ (Queue.unfinished_tasks (url_queue (state_after site_params always_503 2)) = 0 →
     Queue.items (url_queue (state_after site_params always_503 2)) = []
     ∧ ∀ i f, workers (state_after site_params always_503 2) !! i = Some f →
              holding f = None).
Proof.
  apply (join_only_when_idle site_params 2 always_503
           (state_after site_params always_503 2)
           (trace_after site_params always_503 2)).
  vm_compute; reflexivity.
Defined.

(** X6: an item that is let go without [task_done] keeps the crawl from
    ending.  Once a worker's request has met a transport error or a status
    that is neither 2xx nor in one of the two lists, or once a worker that
    holds an item has been cancelled, the count of unfinished tasks stays
    above zero whatever happens next: [url_queue.join()] never returns. *)
Theorem dropped_item_blocks_join p n sched s t i f c sched' s' t' :
  exec p sched (new_session (base_url p) n) [] = Some (s, t) →
  workers s !! i = Some f →
  (c = Cancel i ∧ holds_item f = true)
  ∨ (∃ u d a, f = At_get u d a
      ∧ (c = Deliver i Transport_error
         ∨ ∃ status_code hrefs,
             c = Deliver i (Response status_code hrefs)
             ∧ is_success status_code = false
             ∧ (status_code ∉ skip_codes) ∧ (status_code ∉ backoff_codes))) →
  exec p (c :: sched') s t = Some (s', t') →
  0 < Queue.unfinished_tasks (url_queue s').
Proof.
  intros Hrun Hi Hc Hexec.
  pose proof (run_invariant _ _ _ _ _ Hrun) as Hinv.
  pose proof (inv_pending _ _ Hinv) as Hp.
  simpl in Hexec. destruct (step p c s) as [[s1 t1] |] eqn:Hs; [| done].
  pose proof (step_invariant _ _ _ _ _ _ Hinv Hs) as Hinv1.
  pose proof (exec_lost _ _ _ _ _ _ Hinv1 Hexec) as Hlost.
  assert (1 <= lost s1) as H1.
  { unfold lost.
    destruct Hc as [[-> Hf] | (u & d & a & -> & [-> | (sc & hrefs & -> & ?)])].
    - simpl in Hs. unfold cancel_worker in Hs. rewrite Hi in Hs; simpl in Hs.
      assert (Some (with_workers (<[i := Finished CancelledError]> (workers s)) s,
                    @nil action) = Some (s1, t1)) as [= <- <-]
        by by destruct f.
      simpl. rewrite (filter_insert_length _ _ _ f), Hf by done. simpl. lia.
    - rewrite (transport_error_raises p i u d a) in Hs by done.
      injection Hs as <- <-.
      simpl. rewrite (filter_insert_length _ _ _ (At_get u d a)) by done.
      simpl. lia.
    - destruct_and!.
      rewrite (unhandled_status_keeps_item_unfinished p i u d a) in Hs by done.
      injection Hs as <- <-.
      simpl. rewrite (filter_insert_length _ _ _ (At_get u d a)) by done.
      simpl. lia. }
  unfold lost in *. lia.
Qed.

Lemma dropped_item_blocks_join_witness :
  0 < Queue.unfinished_tasks
        (url_queue (state_after site_params
                      (first_request
                       ++ [Deliver 0%nat (Response 418 []); Resume 0%nat]) 2)).
Proof.
  apply (dropped_item_blocks_join site_params 2 first_request requesting
           (trace_after site_params first_request 2) 0%nat (At_get site 0 1)
           (Deliver 0%nat (Response 418 [])) [Resume 0%nat] _
           (trace_after site_params
              (first_request
               ++ [Deliver 0%nat (Response 418 []); Resume 0%nat]) 2)).
  - vm_compute; reflexivity.
  - vm_compute; reflexivity.
  - right. exists site, 0, 1. split; [reflexivity |]. right.
    exists 418, []. split_and!; [reflexivity | reflexivity | |]; compute_done.
  - vm_compute; reflexivity.
Defined.

(** ** Events *)

Lemma omap_emitted_put (l : list item) : omap emitted (Put_url <$> l) = [].
Proof. induction l; simpl; done. Qed.

Lemma omap_emitted_task_done n : omap emitted (replicate n Task_done) = [].
Proof. induction n; simpl; done. Qed.

(** The events of a worker's step and what the step does to the message
    queue. *)
Lemma worker_move_events p s f f' s1 t :
  worker_move p s f f' s1 t →
  Queue.items (message_queue s1)
  = Queue.items (message_queue s) ++ omap emitted t
  ∧ Queue.unfinished_tasks (message_queue s1)
    = Queue.unfinished_tasks (message_queue s)
      + Z.of_nat (length (omap emitted t))
  ∧ ∀ m, m ∈ omap emitted t →
         holding f = Some (msg_visited m) ∧ holding f' = None.
Proof.
  destruct 1; simpl;
    rewrite ?omap_app, ?omap_emitted_put, ?app_nil_r; simpl;
    split_and!; try done; try lia;
    try (by intros m ?%elem_of_nil);
    by intros m ->%list_elem_of_singleton.
Qed.

Lemma in_order_step p s t s' t' :
  in_order s t → session_move p s s' t' → in_order s' (t ++ t').
Proof.
  intros [[taken Ht] Hn] Hmove. unfold in_order. rewrite omap_app, length_app.
  destruct Hmove as [i f f' s1 t1 Hi Hw | i f Hi Hf | | | m ms Hm]; simpl.
  - destruct (worker_move_events _ _ _ _ _ _ Hw) as (-> & -> & _).
    split; [| lia]. exists taken. by rewrite Ht, app_assoc.
  - rewrite app_nil_r. split; [by exists taken | simpl; lia].
  - rewrite app_nil_r. split; [by exists taken | simpl; lia].
  - rewrite omap_emitted_task_done, app_nil_r.
    split; [by exists taken | simpl; lia].
  - rewrite app_nil_r. split; [| simpl; lia].
    exists (taken ++ [m]). by rewrite Ht, Hm, <- app_assoc.
Qed.

(** X7: the events reach the stream in the order the workers put them.  In
    every run, the events put so far are the ones the stream has taken
    followed by the ones still on the message queue, in that order, and the
    queue has counted each of them; the stream takes the oldest one, and
    waits when there is none. *)
Theorem events_streamed_in_order p n sched s t :
  exec p sched (new_session (base_url p) n) [] = Some (s, t) →
  (∃ taken, omap emitted t = taken ++ Queue.items (message_queue s))
  ∧ Queue.unfinished_tasks (message_queue s)
    = Z.of_nat (length (omap emitted t))
  ∧ (Queue.items (message_queue s) = [] → step p Stream_get s = None)
  ∧ (∀ m ms, Queue.items (message_queue s) = m :: ms →
       message_queue_get s
       = (Ok m,
          with_message_queue
            (Queue.Make ms (Queue.unfinished_tasks (message_queue s))) s,
          [])).
Proof.
  intros Hrun.
  assert (in_order s t) as [Ht Hn].
  { revert sched s t Hrun. apply (run_induction in_order).
    - split; [by exists [] | done].
    - intros s0 t0 s' t' _. apply in_order_step. }
  split_and!; [done | done | |].
  - intros Hm. simpl. unfold run_endpoint, message_queue_get, Queue.get_nowait.
    by rewrite Hm.
  - intros m ms Hm. unfold message_queue_get, Queue.get_nowait. by rewrite Hm.
Qed.

Lemma events_streamed_in_order_witness :
  (∃ taken,
     omap emitted (trace_after site_params (diamond ++ [Stream_get]) 2)
     = taken
       ++ Queue.items
            (message_queue (state_after site_params (diamond ++ [Stream_get]) 2)))
  ∧ Queue.unfinished_tasks
      (message_queue (state_after site_params (diamond ++ [Stream_get]) 2))
    = 3.
Proof.
  destruct (events_streamed_in_order site_params 2 (diamond ++ [Stream_get])
              (state_after site_params (diamond ++ [Stream_get]) 2)
              (trace_after site_params (diamond ++ [Stream_get]) 2)
              ltac:(vm_compute; reflexivity)) as (H1 & H2 & _).
  split; [exact H1 | rewrite H2; vm_compute; reflexivity].
Defined.

Lemma reported_once_step p s t s' t' :
  invariant s t → reported_once s t → session_move p s s' t' →
  reported_once s' (t ++ t').
Proof.
  intros Hinv [Hnd Hvis] Hmove. unfold reported_once.
  rewrite omap_app, fmap_app.
  destruct Hmove as [i f f' s1 t1 Hi Hw | i f Hi Hf | | | m ms Hm]; simpl.
  - pose proof (worker_move_visited _ _ _ _ _ _ Hw) as Hgrow.
    destruct (worker_move_events _ _ _ _ _ _ Hw) as (_ & _ & Hev).
    destruct (omap_insert_perm holding _ i f f' Hi) as (rest & Hold & Hnew).
    assert (∀ u, holding f = Some u → u ∈ visited s) as Hheld.
    { intros u Hu. apply (inv_held _ _ Hinv), list_elem_of_omap.
      exists f. split; [by eapply list_elem_of_lookup_2 | done]. }
    split.
    + rewrite Hnew. rewrite Hold in Hnd.
      destruct Hw as [Hflag | it its Hq Hd | it its Hq Hd Hv | it its Hq Hd Hv
                      | f u d a Hr Ha | f u d a Hr Ha | u d a c hrefs Hc
                      | u d a c Hc | u d a c Hc | u d a c Hc Hs Hb | u d a];
        simpl in *;
        rewrite ?omap_app, ?omap_emitted_put, ?app_nil_r in *; simpl in *;
        try done.
      * rewrite <- Permutation_middle. apply NoDup_cons. split; [| done].
        intros [Hin | Hin]%elem_of_app.
        -- apply list_elem_of_fmap in Hin as (m & Heq & Hm).
           apply Hv. rewrite Heq. by apply Hvis.
        -- apply Hv, (inv_held _ _ Hinv). by rewrite Hold.
      * destruct Hr as [[-> ->] | [w ->]]; simpl in *;
          rewrite <- Permutation_middle in Hnd;
          by apply NoDup_cons in Hnd as [_ ?].
      * by destruct Hr as [[-> ->] | [w ->]]; simpl in *.
      * by rewrite <- app_assoc.
      * by rewrite <- app_assoc.
      * rewrite <- Permutation_middle in Hnd.
        by apply NoDup_cons in Hnd as [_ ?].
      * rewrite <- Permutation_middle in Hnd.
        by apply NoDup_cons in Hnd as [_ ?].
    + intros m [Hm | Hm]%elem_of_app.
      * by apply Hgrow, Hvis.
      * destruct (Hev m Hm) as [Hf _]. apply Hgrow. by apply Hheld.
  - rewrite !app_nil_r. split; [| done].
    destruct (omap_insert_perm holding _ i f (Finished CancelledError) Hi)
      as (rest & Hold & ->).
    rewrite Hold in Hnd. simpl.
    destruct (holding f); simpl in *; [| done].
    rewrite <- Permutation_middle in Hnd. by apply NoDup_cons in Hnd as [_ ?].
  - by rewrite !app_nil_r.
  - by rewrite omap_emitted_task_done, !app_nil_r.
  - by rewrite !app_nil_r.
Qed.

(** X8: no URL is reported twice.  In every run the events put on the
    message queue are for different URLs, each of them in the visited
    set. *)
Theorem one_event_per_url p n sched s t :
  exec p sched (new_session (base_url p) n) [] = Some (s, t) →
  NoDup (msg_visited <$> omap emitted t)
  ∧ ∀ m, m ∈ omap emitted t → msg_visited m ∈ visited s.
Proof.
  intros Hrun.
  assert (reported_once s t) as [Hnd Hvis].
  { revert sched s t Hrun. apply (run_induction reported_once).
    - split; simpl.
      + assert (omap holding (replicate n At_run_flag) = []) as ->
          by (induction n; simpl; done).
        constructor.
      + by intros m ?%elem_of_nil.
    - intros s0 t0 s' t'. apply reported_once_step. }
  split; [| done]. by apply NoDup_app in Hnd as [? _].
Qed.

Lemma one_event_per_url_witness :
  NoDup (msg_visited <$> omap emitted (trace_after site_params diamond 2))
  ∧ ∀ m, m ∈ omap emitted (trace_after site_params diamond 2) →
         msg_visited m ∈ visited (state_after site_params diamond 2).
Proof.
  apply (one_event_per_url site_params 2 diamond).
  vm_compute; reflexivity.
Defined.

(** ** Requests *)

Lemma omap_pair_put (l : list item) : omap request_pair (Put_url <$> l) = [].
Proof. induction l; simpl; done. Qed.

Lemma omap_pair_task_done n : omap request_pair (replicate n Task_done) = [].
Proof. induction n; simpl; done. Qed.

Lemma holders_unique (ws : list frame) i j f g u :
  NoDup (omap holding ws) →
  ws !! i = Some f → ws !! j = Some g →
  holding f = Some u → holding g = Some u → i = j.
Proof.
  revert i j. induction ws as [| x ws IH]; intros i j Hnd Hi Hj Hf Hg;
    [done |].
  assert (NoDup (omap holding ws)
          ∧ ∀ v, holding x = Some v → v ∉ omap holding ws) as [Hnd' Hx].
  { simpl in Hnd. destruct (holding x) as [v |]; [| done].
    apply NoDup_cons in Hnd as [??]. split; [done |]. by intros ? [= <-]. }
  assert (∀ k h, ws !! k = Some h → holding h = Some u →
                 u ∈ omap holding ws) as Hin.
  { intros k h Hk Hh. apply list_elem_of_omap. exists h.
    split; [by eapply list_elem_of_lookup_2 | done]. }
  destruct i as [| i], j as [| j]; simpl in *.
  - done.
  - injection Hi as ->. exfalso. apply (Hx u Hf). by apply (Hin j g).
  - injection Hj as ->. exfalso. apply (Hx u Hg). by apply (Hin i f).
  - f_equal. by apply IH.
Qed.

Lemma requested_of_pair (t : list action) u a :
  (u, a) ∈ omap request_pair t → u ∈ omap requested_url t.
Proof.
  intros (x & Hx & Hp)%list_elem_of_omap. apply list_elem_of_omap.
  exists x. split; [done |]. destruct x; simpl in *; try done.
  by injection Hp as -> _.
Qed.

(** A step of a worker sends no request, or the next one for the URL it
    holds. *)
Lemma worker_move_requests p s f f' s1 t :
  worker_move p s f f' s1 t →
  (omap request_pair t = []
   ∧ (holding f' = None
      ∨ (holding f' = holding f ∧ progress f <= progress f')
      ∨ (∃ u, holding f' = Some u ∧ u ∉ visited s)))
  ∨ (∃ u, holding f = Some u ∧ holding f' = Some u
          ∧ progress f' = progress f + 1
          ∧ omap request_pair t = [(u, progress f + 1)]).
Proof.
  destruct 1 as [Hflag | it its Hq Hd | it its Hq Hd Hv | it its Hq Hd Hv
                 | f u d a Hr Ha | f u d a Hr Ha | u d a c hrefs Hc
                 | u d a c Hc | u d a c Hc | u d a c Hc Hs Hb | u d a];
    simpl; rewrite ?omap_app, ?omap_pair_put; simpl.
  - left. split; [done | by left].
  - left. split; [done | by left].
  - left. split; [done | by left].
  - left. split; [done |]. right; right. by eexists.
  - left. split; [done | by left].
  - right. exists u. by destruct Hr as [[-> ->] | [w ->]].
  - left. split; [done | by left].
  - left. split; [done | by left].
  - left. split; [done |]. right; left. split; simpl; [done | lia].
  - left. split; [done | by left].
  - left. split; [done | by left].
Qed.

Lemma numbered_step p s t s' t' :
  invariant s t → numbered s t → session_move p s s' t' →
  numbered s' (t ++ t').
Proof.
  intros Hinv [Hnd Hnum] Hmove. unfold numbered. rewrite omap_app.
  destruct Hmove as [i f f' s1 t1 Hi Hw | i f Hi Hf | | | m ms Hm]; simpl.
  - pose proof (lookup_lt_Some _ _ _ Hi) as Hlt.
    destruct (worker_move_requests _ _ _ _ _ _ Hw)
      as [[-> Hf'] | (u & Hf & Hf' & Hpr & ->)].
    + rewrite app_nil_r. split; [done |].
      intros j g u a Hj Hg Hin. destruct (decide (j = i)) as [-> | Hne].
      * rewrite list_lookup_insert_eq in Hj by done. injection Hj as <-.
        destruct Hf' as [Hf' | [[Hf' Hpr] | (u' & Hf' & Hu')]].
        -- by rewrite Hf' in Hg.
        -- rewrite Hf' in Hg. pose proof (Hnum i f u a Hi Hg Hin). lia.
        -- rewrite Hf' in Hg. injection Hg as ->. destruct Hu'.
           by eapply (inv_requested _ _ Hinv), requested_of_pair.
      * rewrite list_lookup_insert_ne in Hj by done. by eapply Hnum.
    + split.
      * apply NoDup_app. split_and!; [done | | apply NoDup_singleton].
        intros [u' a'] Hin [= -> ->]%list_elem_of_singleton.
        pose proof (Hnum i f u _ Hi Hf Hin). lia.
      * intros j g u' a Hj Hg Hin. destruct (decide (j = i)) as [-> | Hne].
        -- rewrite list_lookup_insert_eq in Hj by done. injection Hj as <-.
           rewrite Hf' in Hg. injection Hg as <-.
           apply elem_of_app in Hin as [Hin | [= ->]%list_elem_of_singleton];
             [| lia].
           pose proof (Hnum i f u a Hi Hf Hin). lia.
        -- rewrite list_lookup_insert_ne in Hj by done.
           apply elem_of_app in Hin as [Hin | [= -> ->]%list_elem_of_singleton];
             [by eapply Hnum |].
           destruct Hne.
           by eapply (holders_unique (workers s)); [apply Hinv | ..].
  - rewrite app_nil_r. split; [done |].
    pose proof (lookup_lt_Some _ _ _ Hi) as Hlt.
    intros j g u a Hj Hg Hin. destruct (decide (j = i)) as [-> | Hne].
    + rewrite list_lookup_insert_eq in Hj by done. by injection Hj as <-.
    + rewrite list_lookup_insert_ne in Hj by done. by eapply Hnum.
  - by rewrite app_nil_r.
  - by rewrite omap_pair_task_done, app_nil_r.
  - by rewrite app_nil_r.
Qed.

Lemma run_numbered p n sched s t :
  exec p sched (new_session (base_url p) n) [] = Some (s, t) → numbered s t.
Proof.
  apply (run_induction numbered).
  - split; simpl; [constructor | by intros ????? _ ?%elem_of_nil].
  - intros s0 t0 s' t'. apply numbered_step.
Qed.

Lemma filter_requested_length u (t : list action) :
  length (List.filter (requested u) t) = length (omap (attempt_of u) t).
Proof.
  induction t as [| x t IH]; simpl; [done |].
  destruct x as [u' a | | | | |]; simpl; try done.
  rewrite bool_decide_decide. by destruct (decide (u' = u)); simpl; rewrite IH.
Qed.

Lemma attempt_of_pair u n (t : list action) :
  n ∈ omap (attempt_of u) t ↔ (u, n) ∈ omap request_pair t.
Proof.
  rewrite !list_elem_of_omap. split; intros (x & Hx & Hp); exists x;
    (split; [done |]); destruct x as [u' a | | | | |]; simpl in *; try done.
  - destruct (decide (u' = u)) as [-> |]; [| done]. by injection Hp as ->.
  - injection Hp as -> ->. by rewrite decide_True.
Qed.

Lemma attempts_NoDup u (t : list action) :
  NoDup (omap request_pair t) → NoDup (omap (attempt_of u) t).
Proof.
  induction t as [| x t IH]; simpl; [constructor |].
  destruct x as [u' a | | | | |]; simpl; try done.
  intros [Hn Hnd]%NoDup_cons.
  destruct (decide (u' = u)) as [-> |]; [| by apply IH].
  apply NoDup_cons. split; [| by apply IH]. by rewrite attempt_of_pair.
Qed.

Lemma NoDup_bounded_length (l : list Z) (m : Z) :
  NoDup l → (∀ x, x ∈ l → 1 <= x <= m) →
  Z.of_nat (length l) <= Z.max 0 m.
Proof.
  intros Hnd Hl.
  assert (l ⊆+ seqZ 1 m) as Hsub.
  { apply NoDup_submseteq; [done |]. intros x Hx. apply elem_of_seqZ.
    specialize (Hl x Hx). lia. }
  apply submseteq_length in Hsub. rewrite length_seqZ in Hsub. lia.
Qed.

(** X3: the requests of a whole run, counted.  No request is repeated: each
    URL gets its first attempt at most once, its second at most once, and so
    on; every attempt number is between 1 and [max_attempts + 1]; so no URL
    is requested more than [max_attempts + 1] times in the life of a
    session. *)
Theorem requests_per_url_bounded p n sched s t :
  exec p sched (new_session (base_url p) n) [] = Some (s, t) →
  NoDup (omap request_pair t)
  ∧ (∀ u a, Get u a ∈ t → 1 <= a <= max_attempts p + 1)
  ∧ ∀ u, Z.of_nat (length (List.filter (requested u) t))
         <= Z.max 0 (max_attempts p + 1).
Proof.
  intros Hrun.
  destruct (run_numbered _ _ _ _ _ Hrun) as [Hnd _].
  pose proof (tidy_trace _ _ _ (run_tidy _ _ _ _ _ Hrun)) as Ht.
  assert (∀ u a, Get u a ∈ t → 1 <= a <= max_attempts p + 1) as Hrange.
  { intros u a Hin. by destruct (proj1 (Forall_forall _ _) Ht _ Hin). }
  split_and!; [done | done |]. intros u.
  rewrite filter_requested_length. apply NoDup_bounded_length.
  - by apply attempts_NoDup.
  - intros a Ha%attempt_of_pair. apply (Hrange u).
    apply list_elem_of_omap in Ha as (x & Hx & Hp).
    destruct x; simpl in *; try done. by injection Hp as -> ->.
Qed.

Lemma requests_per_url_bounded_witness :
  NoDup (omap request_pair (trace_after site_params always_503 2))
  ∧ (∀ u a, Get u a ∈ trace_after site_params always_503 2 →
            1 <= a <= max_attempts site_params + 1)
  ∧ ∀ u, Z.of_nat (length (List.filter (requested u)
                             (trace_after site_params always_503 2)))
         <= Z.max 0 (max_attempts site_params + 1).
Proof.
  apply (requests_per_url_bounded site_params 2 always_503
           (state_after site_params always_503 2)).
  vm_compute; reflexivity.
Defined.

(** ** Where the crawler goes *)

(** X1: the crawler never leaves the site.  In every run, every request,
    every item on the frontier, every URL in the visited set and every
    event, with all the links it lists, is for a URL that starts with the
    base URL. *)
Theorem stays_on_site p n sched s t :
  exec p sched (new_session (base_url p) n) [] = Some (s, t) →
  (∀ u a, Get u a ∈ t → on_site p u)
  ∧ (∀ it, it ∈ Queue.items (url_queue s) → on_site p (url it))
  ∧ (∀ u, u ∈ visited s → on_site p u)
  ∧ (∀ m, Put_message m ∈ t →
          on_site p (msg_visited m) ∧ ∀ l, l ∈ msg_links m → on_site p l).
Proof.
  intros Hrun. destruct (run_tidy _ _ _ _ _ Hrun) as [Hits Hfs Ht].
  pose proof (proj1 (Forall_forall _ _) Ht) as Hact.
  split_and!.
  - intros u a Hin. by destruct (Hact _ Hin).
  - intros it Hin. by destruct (proj1 (Forall_forall _ _) Hits _ Hin).
  - intros u Hu.
    rewrite (inv_visited _ _ (run_invariant _ _ _ _ _ Hrun)) in Hu.
    apply elem_of_list_to_set, list_elem_of_omap in Hu as (x & Hx & Hadd).
    destruct x; simpl in Hadd; try done. injection Hadd as ->.
    apply (Hact _ Hx).
  - intros m Hin. destruct (Hact _ Hin) as (Hu & _ & Hl).
    split; [done |]. by apply Forall_forall.
Qed.

Lemma stays_on_site_witness :
  (∀ u a, Get u a ∈ trace_after site_params diamond 2 → on_site site_params u)
  ∧ (∀ it, it ∈ Queue.items (url_queue (state_after site_params diamond 2)) →
           on_site site_params (url it))
  ∧ (∀ u, u ∈ visited (state_after site_params diamond 2) →
          on_site site_params u)
  ∧ (∀ m, Put_message m ∈ trace_after site_params diamond 2 →
          on_site site_params (msg_visited m)
          ∧ ∀ l, l ∈ msg_links m → on_site site_params l).
Proof.
  apply (stays_on_site site_params 2 diamond). vm_compute; reflexivity.
Defined.

(** X2: the depth limit holds everywhere.  In every run, a URL that is
    being requested, slept on or backed off from is at a depth between 0 and
    [max_depth], and so is every event; an item on the frontier is the
    origin at depth 0 or lies at most one level below the limit. *)
Theorem depth_bounded p n sched s t :
  exec p sched (new_session (base_url p) n) [] = Some (s, t) →
  (∀ i f u d, workers s !! i = Some f →
     (f = At_sleep u d ∨ (∃ a, f = At_get u d a)
      ∨ (∃ a w, f = At_backoff u d a w)) →
     0 <= d <= max_depth p)
  ∧ (∀ m, Put_message m ∈ t → 0 <= msg_depth m <= max_depth p)
  ∧ (∀ it, it ∈ Queue.items (url_queue s) →
           0 <= depth it ∧ (depth it = 0 ∨ depth it <= max_depth p + 1)).
Proof.
  intros Hrun. destruct (run_tidy _ _ _ _ _ Hrun) as [Hits Hfs Ht].
  split_and!.
  - intros i f u d Hi Hf.
    pose proof (proj1 (Forall_lookup _ _) Hfs i f Hi) as Hok.
    destruct Hf as [-> | [[a ->] | (a & w & ->)]]; simpl in Hok; tauto.
  - intros m Hin. by destruct (proj1 (Forall_forall _ _) Ht _ Hin) as (_ & ? & _).
  - intros it Hin.
    by destruct (proj1 (Forall_forall _ _) Hits _ Hin) as (_ & ? & ?).
Qed.

Lemma depth_bounded_witness :
  (∀ i f u d, workers (state_after site_params diamond 2) !! i = Some f →
     (f = At_sleep u d ∨ (∃ a, f = At_get u d a)
      ∨ (∃ a w, f = At_backoff u d a w)) →
     0 <= d <= max_depth site_params)
  ∧ (∀ m, Put_message m ∈ trace_after site_params diamond 2 →
          0 <= msg_depth m <= max_depth site_params)
  ∧ (∀ it, it ∈ Queue.items (url_queue (state_after site_params diamond 2)) →
           0 <= depth it
           ∧ (depth it = 0 ∨ depth it <= max_depth site_params + 1)).
Proof.
  apply (depth_bounded site_params 2 diamond _
           (trace_after site_params diamond 2)).
  vm_compute; reflexivity.
Defined.

(** X4: how a worker can end.  In every run the pool keeps its size, and a
    worker whose task has ended was stopped by a transport error or by a
    cancellation: no step of the loop itself raises, and in particular
    [task_done] is never called once too often. *)
Theorem workers_end_by_error_or_cancel p n sched s t :
  exec p sched (new_session (base_url p) n) [] = Some (s, t) →
  length (workers s) = n
  ∧ ∀ i e, workers s !! i = Some (Finished e) →
           e = RequestError ∨ e = CancelledError.
Proof.
  intros Hrun. split.
  - revert sched s t Hrun.
    apply (run_induction (λ s _, length (workers s) = n)).
    + simpl. apply length_replicate.
    + intros s0 t0 s' t' _ Hlen Hmove.
      destruct Hmove as [i f f' s1 t1 Hi Hw | i f Hi Hf | | | m ms Hm]; simpl;
        rewrite ?length_insert; try done.
  - intros i e Hi.
    apply (proj1 (Forall_lookup _ _)
             (tidy_frames _ _ _ (run_tidy _ _ _ _ _ Hrun)) i _ Hi).
Qed.

Lemma workers_end_by_error_or_cancel_witness :
  length (workers (state_after site_params
                     (first_request ++ [Deliver 0%nat Transport_error]) 2))
  = 2%nat
  ∧ ∀ i e,
      workers (state_after site_params
                 (first_request ++ [Deliver 0%nat Transport_error]) 2) !! i
      = Some (Finished e) →
      e = RequestError ∨ e = CancelledError.
Proof.
  apply (workers_end_by_error_or_cancel site_params 2
           (first_request ++ [Deliver 0%nat Transport_error]) _
           (trace_after site_params
              (first_request ++ [Deliver 0%nat Transport_error]) 2)).
  vm_compute; reflexivity.
Defined.

(** ** The end of a crawl and of the application *)

Lemma cancelled_workers_idle p s i c :
  c = Resume i ∨ (∃ r, c = Deliver i r) ∨ c = Cancel i →
  step p c (cancel_workers s) = None.
Proof.
  intros Hc.
  assert (workers (cancel_workers s) !! i = None
          ∨ ∃ e, workers (cancel_workers s) !! i = Some (Finished e)) as Hi.
  { simpl. rewrite list_lookup_fmap.
    destruct (workers s !! i) as [f |]; simpl; [| by left].
    right. destruct f; simpl; by eexists. }
  destruct Hc as [-> | [[r ->] | ->]]; simpl;
    unfold run_worker, cancel_worker;
    by destruct Hi as [-> | [e ->]].
Qed.

(** X9: a crawl ends cleanly.  [url_queue.join()] lets [crawl] go on exactly
    when no task is unfinished; at that moment, in every run, the frontier
    is empty and no worker holds an item, so the cancellation interrupts no
    request; after it every worker has ended, none can take another step,
    and the frontier, the visited set and the message queue are as they
    were. *)
Theorem crawl_ends_cleanly p n sched s t :
  exec p sched (new_session (base_url p) n) [] = Some (s, t) →
  (crawl_end s = None ↔ 0 < Queue.unfinished_tasks (url_queue s))
  ∧ ∀ s', crawl_end s = Some s' →
      Queue.unfinished_tasks (url_queue s) = 0
      ∧ Queue.items (url_queue s) = []
      ∧ (∀ i f, workers s !! i = Some f → holding f = None)
      ∧ (∀ i f, workers s' !! i = Some f → ∃ e, f = Finished e)
      ∧ (∀ i c, c = Resume i ∨ (∃ r, c = Deliver i r) ∨ c = Cancel i →
                step p c s' = None)
      ∧ url_queue s' = url_queue s
      ∧ visited s' = visited s
      ∧ message_queue s' = message_queue s.
Proof.
  intros Hrun. unfold crawl_end.
  pose proof (run_invariant _ _ _ _ _ Hrun) as Hinv.
  pose proof (inv_pending _ _ Hinv) as Hpos.
  destruct (Z.gtb_spec (Queue.unfinished_tasks (url_queue s)) 0) as [H0 | H0].
  - split; [done | done].
  - split; [split; [done | lia] |].
    intros s' [= <-].
    assert (Queue.unfinished_tasks (url_queue s) = 0) as Hz by lia.
    destruct (idle_when_nothing_unfinished _ _ Hinv Hz) as [Hq Hw].
    split_and!; try done.
    + intros i f Hi. simpl in Hi. rewrite list_lookup_fmap in Hi.
      destruct (workers s !! i) as [g |]; simpl in Hi; [| done].
      injection Hi as <-. destruct g; simpl; by eexists.
    + intros i c Hc. by eapply cancelled_workers_idle.
Qed.

Lemma crawl_ends_cleanly_witness :
  Queue.unfinished_tasks (url_queue (state_after site_params always_503 2)) = 0
  ∧ Queue.items (url_queue (state_after site_params always_503 2)) = []
  ∧ (∀ i f, workers (state_after site_params always_503 2) !! i = Some f →
            holding f = None)
  ∧ (∀ i f, workers (cancel_workers (state_after site_params always_503 2))
              !! i = Some f →
            ∃ e, f = Finished e)
  ∧ (∀ i c, c = Resume i ∨ (∃ r, c = Deliver i r) ∨ c = Cancel i →
            step site_params c
              (cancel_workers (state_after site_params always_503 2))
            = None)
  ∧ url_queue (cancel_workers (state_after site_params always_503 2))
    = url_queue (state_after site_params always_503 2)
  ∧ visited (cancel_workers (state_after site_params always_503 2))
    = visited (state_after site_params always_503 2)
  ∧ message_queue (cancel_workers (state_after site_params always_503 2))
    = message_queue (state_after site_params always_503 2).
Proof.
  apply (proj2 (crawl_ends_cleanly site_params 2 always_503
                  (state_after site_params always_503 2)
                  (trace_after site_params always_503 2)
                  ltac:(vm_compute; reflexivity))
           (cancel_workers (state_after site_params always_503 2))).
  vm_compute; reflexivity.
Defined.

(** X12: shutting the application down stops every worker.  After
    [lifespan]'s cancel loop the registry has the same keys; in every
    published session each worker has ended, with the exception it had if
    it had ended before, and none can take another step; the frontier, the
    visited set and the message queue of the session are untouched; a
    session that [crawl] has not published yet stays unpublished. *)
Theorem lifespan_stops_every_worker sessions session_key e :
  sessions !! session_key = Some e →
  ∃ e', lifespan sessions !! session_key = Some e'
    ∧ entry_url e' = entry_url e
    ∧ (entry_crawl e = None → entry_crawl e' = None)
    ∧ ∀ s, entry_crawl e = Some s →
        ∃ s', entry_crawl e' = Some s'
          ∧ workers s' = cancelled <$> workers s
          ∧ (∀ p i c, c = Resume i ∨ (∃ r, c = Deliver i r) ∨ c = Cancel i →
                      step p c s' = None)
          ∧ url_queue s' = url_queue s
          ∧ visited s' = visited s
          ∧ message_queue s' = message_queue s.
Proof.
  intros Hk. unfold lifespan. rewrite lookup_fmap, Hk; simpl.
  eexists. split; [done |]. simpl. split_and!; [done | by intros -> |].
  intros s ->. simpl. eexists. split; [done |].
  split_and!; try done. intros p i c Hc. by eapply cancelled_workers_idle.
Qed.

Lemma lifespan_stops_every_worker_witness :
  ∃ e', lifespan one_session !! "k" = Some e'
    ∧ entry_url e' = site
    ∧ ∃ s', entry_crawl e' = Some s'
        ∧ workers s' = cancelled <$> workers site_session
        ∧ visited s' = visited site_session.
Proof.
  destruct (lifespan_stops_every_worker one_session "k"
              (Entry site 2 (Some site_session))
              ltac:(vm_compute; reflexivity))
    as (e' & Hk & Hu & _ & Hs).
  destruct (Hs site_session eq_refl) as (s' & Hc & Hw & _ & _ & Hv & _).
  exists e'. split_and!; [done | done |]. by exists s'.
Defined.

(** ** The registry *)

(** X13: the endpoints keep to their session.  [set_session], [crawl] and
    [stop_session] on one key leave the entry of every other key as it is;
    [stop_session] never removes or adds a session, and keeps the URL and
    the depth limit of the one it stops. *)
Theorem endpoints_keep_other_sessions others session_key other sessions :
  other ≠ session_key →
  (∀ url max_depth,
     snd (set_session session_key url max_depth sessions) !! other
     = sessions !! other)
  ∧ (∀ sessions', crawl session_key sessions = Ok sessions' →
                  sessions' !! other = sessions !! other)
  ∧ snd (stop_session others session_key sessions) !! other
    = sessions !! other
  ∧ dom (snd (stop_session others session_key sessions)) = dom sessions
  ∧ (∀ e, sessions !! session_key = Some e →
       ∃ e', snd (stop_session others session_key sessions) !! session_key
             = Some e'
         ∧ entry_url e' = entry_url e
         ∧ entry_max_depth e' = entry_max_depth e).
Proof.
  intros Hne. split_and!.
  - intros url max_depth. simpl. by rewrite lookup_insert_ne.
  - intros sessions'. unfold crawl.
    destruct (sessions !! session_key); [| done].
    intros [= <-]. by rewrite lookup_insert_ne.
  - unfold stop_session.
    destruct (sessions !! session_key) as [e |]; [| done].
    destruct (entry_crawl e) as [s |]; [| done].
    destruct (drain_url_queue _) as [[r s'] t'].
    destruct r; simpl; by rewrite lookup_insert_ne.
  - unfold stop_session.
    destruct (sessions !! session_key) as [e |] eqn:Hk; [| done].
    destruct (entry_crawl e) as [s |]; [| done].
    destruct (drain_url_queue _) as [[r s'] t'].
    assert (dom (<[session_key :=
                     Entry (entry_url e) (entry_max_depth e) (Some s')]>
                   sessions) = dom sessions) as Hdom.
    { rewrite dom_insert_L. apply elem_of_dom_2 in Hk.
      apply subseteq_union_1_L. by apply singleton_subseteq_l. }
    by destruct r.
  - intros e Hk. unfold stop_session. rewrite Hk.
    destruct (entry_crawl e) as [s |]; [| by exists e].
    destruct (drain_url_queue _) as [[r s'] t'].
    destruct r; simpl; rewrite lookup_insert_eq; by eexists.
Qed.

Lemma endpoints_keep_other_sessions_witness :
  snd (stop_session id "k" (<["other" := Entry elsewhere 1 None]> one_session))
    !! "other"
  = Some (Entry elsewhere 1 None).
Proof.
  destruct (endpoints_keep_other_sessions id "k" "other"
              (<["other" := Entry elsewhere 1 None]> one_session)
              ltac:(discriminate)) as (_ & _ & -> & _).
  vm_compute; reflexivity.
Defined.

(** ** The failure counter *)

Lemma backoff_calls_app b m calls calls' :
  backoff_calls b m (calls ++ calls')
  = backoff_calls (backoff_calls b m calls) m calls'.
Proof. revert b. induction calls as [| c calls IH]; intros b; simpl; done. Qed.

Lemma backoff_calls_failures b m k :
  consecutive_failures (backoff_calls b m (replicate k true))
  = consecutive_failures b + Z.of_nat k.
Proof.
  revert b. induction k as [| k IH]; intros b; simpl; [lia |].
  rewrite IH. simpl. lia.
Qed.

(** X14: [consecutive_failures] counts the failures since the last success.
    After any calls, one that reports a success and then [k] that report a
    failure leave the counter at [k]; with no success at all the counter
    grows by the number of failures. *)
Theorem failures_counted b m calls k :
  consecutive_failures
    (backoff_calls b m (calls ++ false :: replicate k true))
  = Z.of_nat k
  ∧ consecutive_failures (backoff_calls b m (replicate k true))
    = consecutive_failures b + Z.of_nat k.
Proof.
  split; [| apply backoff_calls_failures].
  rewrite backoff_calls_app. simpl. rewrite backoff_calls_failures.
  unfold backoff_calculator.
  by destruct (PrimFloat.ltb m (wait (backoff_calls b m calls))).
Qed.

(** ** What can no longer happen *)

Lemma continuation_induction (P : session → list action → Prop) p :
  (∀ s t s' t', invariant s t → P s t → session_move p s s' t' →
                P s' (t ++ t')) →
  ∀ sched s t s' t',
    invariant s t → P s t → exec p sched s t = Some (s', t') → P s' t'.
Proof.
  intros Hstep sched.
  induction sched as [| c sched IH]; intros s t s' t' Hinv HP Hexec;
    simpl in Hexec.
  - by injection Hexec as <- <-.
  - destruct (step p c s) as [[s1 t1] |] eqn:Hs; [| done].
    eapply IH; [| | exact Hexec].
    + by eapply step_invariant.
    + eapply Hstep; [done | done |]. by eapply step_moves.
Qed.

Lemma omap_requested_app (t t' : list action) :
  omap requested_url t' = [] →
  omap requested_url (t ++ t') = omap requested_url t.
Proof. intros H. by rewrite omap_app, H, app_nil_r. Qed.

Lemma omap_emitted_app (t t' : list action) :
  omap emitted t' = [] → omap emitted (t ++ t') = omap emitted t.
Proof. intros H. by rewrite omap_app, H, app_nil_r. Qed.

Lemma done_step p s t s' t' :
  invariant s t → Queue.unfinished_tasks (url_queue s) = 0 →
  session_move p s s' t' →
  Queue.unfinished_tasks (url_queue s') = 0
  ∧ visited s' = visited s
  ∧ omap requested_url t' = []
  ∧ omap emitted t' = [].
Proof.
  intros Hinv H0 Hmove.
  destruct (idle_when_nothing_unfinished _ _ Hinv H0) as [Hq Hidle].
  destruct Hmove as [i f f' s1 t1 Hi Hw | i f Hi Hf | | | m ms Hm]; simpl;
    try done.
  - specialize (Hidle i f Hi).
    destruct Hw as [Hflag | it its Hq' Hd | it its Hq' Hd Hv
                    | it its Hq' Hd Hv | f u d a Hr Ha | f u d a Hr Ha
                    | u d a c hrefs Hc | u d a c Hc | u d a c Hc
                    | u d a c Hc Hs Hb | u d a];
      try (by rewrite Hq in Hq'); try done;
      by destruct Hr as [[-> ->] | [w ->]].
  - rewrite Hq, H0. done.
Qed.

Lemma paused_step p s s' t' :
  run_flag s = false → session_move p s s' t' →
  run_flag s' = false
  ∧ (Forall parked (workers s) →
     Forall parked (workers s')
     ∧ visited s' = visited s
     ∧ omap requested_url t' = []
     ∧ omap emitted t' = []).
Proof.
  intros Hflag Hmove.
  destruct Hmove as [i f f' s1 t1 Hi Hw | i f Hi Hf | | | m ms Hm]; simpl.
  - split; [by destruct Hw |]. intros Hpark.
    pose proof (proj1 (Forall_lookup _ _) Hpark i f Hi) as [-> | [e ->]].
    + inversion Hw; subst; try congruence.
      all: by match goal with
              | H : retrying _ _ _ _ |- _ => destruct H as [[? _] | [? ?]]
              end.
    + inversion Hw; subst.
      all: by match goal with
              | H : retrying _ _ _ _ |- _ => destruct H as [[? _] | [? ?]]
              end.
  - split; [done |]. intros Hpark. split_and!; try done.
    apply Forall_insert; [done |]. right. by eexists.
  - split; [done |]. by intros Hpark.
  - split; [done |]. intros Hpark. split_and!; try done.
    + by rewrite omap_requested_task_done.
    + by rewrite omap_emitted_task_done.
  - split; [done |]. by intros Hpark.
Qed.

(** X10: completion is final.  Once nothing is unfinished in a run, nothing
    is unfinished ever after: whatever is scheduled next, no request is
    sent, no event is put and the visited set stays as it is.  So the
    moment [url_queue.join()] is woken for is still there when [crawl]
    goes on. *)
Theorem completion_is_final p n sched s t sched' s' t' :
  exec p sched (new_session (base_url p) n) [] = Some (s, t) →
  Queue.unfinished_tasks (url_queue s) = 0 →
  exec p sched' s t = Some (s', t') →
  Queue.unfinished_tasks (url_queue s') = 0
  ∧ visited s' = visited s
  ∧ omap requested_url t' = omap requested_url t
  ∧ omap emitted t' = omap emitted t.
Proof.
  intros Hrun H0 Hexec.
  pose proof (run_invariant _ _ _ _ _ Hrun) as Hinv.
  apply (continuation_induction
           (λ s1 t1, Queue.unfinished_tasks (url_queue s1) = 0
                     ∧ visited s1 = visited s
                     ∧ omap requested_url t1 = omap requested_url t
                     ∧ omap emitted t1 = omap emitted t)
           p) with (sched := sched') (s := s) (t := t); try done.
  intros s1 t1 s2 t2 Hinv1 (H1 & Hv & Hr & He) Hmove.
  destruct (done_step _ _ _ _ _ Hinv1 H1 Hmove) as (H2 & Hv2 & Hr2 & He2).
  split_and!; [done | congruence | |].
  - by rewrite omap_requested_app.
  - by rewrite omap_emitted_app.
Qed.

Lemma completion_is_final_witness :
  Queue.unfinished_tasks
    (url_queue (state_after site_params
                  (always_503 ++ [Resume 0%nat; Stop_clear; Cancel 1%nat]) 2))
  = 0
  ∧ omap requested_url
      (trace_after site_params
         (always_503 ++ [Resume 0%nat; Stop_clear; Cancel 1%nat]) 2)
    = omap requested_url (trace_after site_params always_503 2).
Proof.
  destruct (completion_is_final site_params 2 always_503
              (state_after site_params always_503 2)
              (trace_after site_params always_503 2)
              [Resume 0%nat; Stop_clear; Cancel 1%nat]
              (state_after site_params
                 (always_503 ++ [Resume 0%nat; Stop_clear; Cancel 1%nat]) 2)
              (trace_after site_params
                 (always_503 ++ [Resume 0%nat; Stop_clear; Cancel 1%nat]) 2)
              ltac:(vm_compute; reflexivity)
              ltac:(vm_compute; reflexivity)
              ltac:(vm_compute; reflexivity)) as (H0 & _ & Hr & _).
  by split.
Defined.

(** X11: a pause is final.  Nothing sets the run flag again: once it is
    cleared in a run it stays cleared whatever is scheduled next; and if at
    that moment every worker waits for the flag or has ended, the workers
    stay there, no request is sent, no event is put and the visited set
    does not change, ever after. *)
Theorem pause_is_final p n sched s t sched' s' t' :
  exec p sched (new_session (base_url p) n) [] = Some (s, t) →
  run_flag s = false →
  exec p sched' s t = Some (s', t') →
  run_flag s' = false
  ∧ (Forall parked (workers s) →
     Forall parked (workers s')
     ∧ visited s' = visited s
     ∧ omap requested_url t' = omap requested_url t
     ∧ omap emitted t' = omap emitted t).
Proof.
  intros Hrun Hflag Hexec.
  pose proof (run_invariant _ _ _ _ _ Hrun) as Hinv.
  apply (continuation_induction
           (λ s1 t1, run_flag s1 = false
                     ∧ (Forall parked (workers s) →
                        Forall parked (workers s1)
                        ∧ visited s1 = visited s
                        ∧ omap requested_url t1 = omap requested_url t
                        ∧ omap emitted t1 = omap emitted t))
           p) with (sched := sched') (s := s) (t := t); try done.
  intros s1 t1 s2 t2 Hinv1 [Hf1 Hp1] Hmove.
  destruct (paused_step _ _ _ _ Hf1 Hmove) as [Hf2 Hp2].
  split; [done |]. intros Hpark.
  destruct (Hp1 Hpark) as (Hpk & Hv & Hr & He).
  destruct (Hp2 Hpk) as (Hpk2 & Hv2 & Hr2 & He2).
  split_and!; [done | congruence | |].
  - by rewrite omap_requested_app.
  - by rewrite omap_emitted_app.
Qed.

Lemma pause_is_final_witness :
  run_flag (state_after site_params
              (first_request ++ [Stop_clear; Stop_drain;
                                 Deliver 0%nat (Response 200 [page_a]);
                                 Stream_get]) 2)
  = false.
Proof.
  apply (pause_is_final site_params 2 (first_request ++ [Stop_clear])
           (state_after site_params (first_request ++ [Stop_clear]) 2)
           (trace_after site_params (first_request ++ [Stop_clear]) 2)
           [Stop_drain; Deliver 0%nat (Response 200 [page_a]); Stream_get]
           _
           (trace_after site_params
              (first_request ++ [Stop_clear; Stop_drain;
                                 Deliver 0%nat (Response 200 [page_a]);
                                 Stream_get]) 2)).
  - vm_compute; reflexivity.
  - vm_compute; reflexivity.
  - vm_compute; reflexivity.
Defined.
